(** * synapse/notifier.py: the long-poll notifier

    A shallow embedding of [_NotificationListener] and [Notifier] from
    [synapse/notifier.py], and the properties of listener resolution,
    index maintenance and cursor chaining that follow from the code.

    Modelling conventions.
    - Python objects that are mutated and shared (the two index dicts, the
      Deferred of a listener, the reactor's timer queue) live in one
      [World] record that every method takes and returns.
    - A listener object is immutable after [__init__] apart from the state
      of its Deferred, so it is a record; its [deferred] field is the
      address of the Deferred cell in the world.  [get_events_for]
      allocates a new Deferred for each listener, which is what tells two
      listener objects apart in the index sets.
    - Exceptions are values of [exn]; a method that can raise returns an
      [outcome].
    - The methods under [inlineCallbacks] are modelled twice.  The part
      "Calls suspended at a [yield]" is the code as the reactor runs it:
      a call runs up to the [yield] on a source query, stays [Suspended]
      while other calls, joins and timers run, and is resumed with
      whatever the query comes back with, an answer or a failure.  The
      functions named after the methods ([on_new_room_event],
      [_check_for_updates], [get_events_for], ...) are the uninterrupted
      runs of the same code: every query is answered at once, by an
      [EventSource] function, and none fails. *)

From stdpp Require Import gmap strings list fin_maps fin_sets.

#[local] Set Warnings "-clear-no-such-hyp".

Open Scope string_scope.
Open Scope list_scope.

(** ** Data *)

Definition user_id := string.
Definition room_id_t := string.
(** A stream token; Python truthiness of a string: empty is false. *)
Definition token := string.
Definition did := positive.

Record Event := mkEvent { room_id : room_id_t; content : string }.

(** [result = (events, (start_token, end_token))] *)
Definition Result : Type := list Event * (token * token).

Inductive exn :=
| AlreadyCalledError
| KeyError (key : string)
| SourceError (reason : string).

Inductive outcome (A : Type) :=
| Ok (a : A)
| Raise (e : exn).
Arguments Ok {A} a.
Arguments Raise {A} e.

Global Instance outcome_ret : MRet outcome := λ A a, Ok a.

Global Instance outcome_bind : MBind outcome := λ A B f m,
  match m with
  | Ok a => f a
  | Raise e => Raise e
  end.

(** [try: m except AlreadyCalledError: handler] *)
Definition try_except_AlreadyCalled {A} (m : outcome A) (handler : outcome A)
  : outcome A :=
  match m with
  | Ok a => Ok a
  | Raise AlreadyCalledError => handler
  | Raise e => Raise e
  end.

(** [_NotificationListener.__init__]; [pending_notifications] is never
    read or written again and is left out. *)
Record _NotificationListener := mkListener {
  user : user_id;
  rooms : list room_id_t;
  from_token : token;
  limit : nat;
  timeout : nat;
  deferred : did
}.

Global Instance Event_eq_dec : EqDecision Event.
Proof. solve_decision. Defined.

Global Instance listener_eq_dec : EqDecision _NotificationListener.
Proof. solve_decision. Defined.

Definition listener_to_tuple (l : _NotificationListener) :=
  (user l, rooms l, from_token l, limit l, timeout l, deferred l).

Definition listener_of_tuple
    (t : user_id * list room_id_t * token * nat * nat * did) :=
  let '(u, r, f, li, ti, d) := t in mkListener u r f li ti d.

Global Instance listener_countable : Countable _NotificationListener.
Proof.
  apply (inj_countable' listener_to_tuple listener_of_tuple).
  by intros [].
Defined.

(** A twisted Deferred, as far as the notifier uses it. *)
Inductive Deferred :=
| NotCalled
| Called (result : Result)
| Failed (e : exn).

(** [get_new_events_for_user(user, from_token, limit)] of one source, when
    it answers at once.  [resume] below takes the answer of a suspended
    query, or its failure, from the environment instead. *)
Definition EventSource : Type :=
  user_id → token → nat → list Event * token.

(** [hs.get_event_sources()]: the [sources] dict in its iteration order,
    and the value [get_current_token()] yields. *)
Record EventSources := mkEventSources {
  sources : list (string * EventSource);
  get_current_token : token
}.

(** The Notifier's two dicts, with the Deferreds and the reactor's pending
    [callLater] calls ([delay], argument of [_timeout_listener]). *)
Record World := mkWorld {
  rooms_to_listeners : gmap room_id_t (gset _NotificationListener);
  user_to_listeners : gmap user_id (gset _NotificationListener);
  deferreds : gmap did Deferred;
  timers : list (nat * _NotificationListener)
}.

Definition set_rooms_to_listeners
    (f : gmap room_id_t (gset _NotificationListener) →
         gmap room_id_t (gset _NotificationListener)) (w : World) : World :=
  mkWorld (f (rooms_to_listeners w)) (user_to_listeners w)
          (deferreds w) (timers w).

Definition set_user_to_listeners
    (f : gmap user_id (gset _NotificationListener) →
         gmap user_id (gset _NotificationListener)) (w : World) : World :=
  mkWorld (rooms_to_listeners w) (f (user_to_listeners w))
          (deferreds w) (timers w).

Definition set_deferreds (f : gmap did Deferred → gmap did Deferred)
    (w : World) : World :=
  mkWorld (rooms_to_listeners w) (user_to_listeners w)
          (f (deferreds w)) (timers w).

Definition set_timers
    (f : list (nat * _NotificationListener) →
         list (nat * _NotificationListener)) (w : World) : World :=
  mkWorld (rooms_to_listeners w) (user_to_listeners w)
          (deferreds w) (f (timers w)).

(** [Notifier.__init__] *)
Definition Notifier_init : World := mkWorld ∅ ∅ ∅ [].

(** ** Python dict and set primitives *)

(** [d.get(k, set())] read as a value. *)
Definition dict_get `{Countable K} (d : gmap K (gset _NotificationListener))
    (k : K) : gset _NotificationListener :=
  default ∅ (d !! k).

(** [d.get(k, set()).discard(x)]: the stored set is changed in place; a
    missing key yields a temporary set and the dict is not touched. *)
Definition get_discard `{Countable K} (k : K) (x : _NotificationListener)
    (d : gmap K (gset _NotificationListener))
  : gmap K (gset _NotificationListener) :=
  alter (λ s, s ∖ {[x]}) k d.

(** [d.setdefault(k, set())] *)
Definition setdefault `{Countable K} (k : K)
    (d : gmap K (gset _NotificationListener))
  : gmap K (gset _NotificationListener) :=
  match d !! k with
  | Some _ => d
  | None => <[k := ∅]> d
  end.

(** [d.setdefault(k, set()).add(x)] *)
Definition setdefault_add `{Countable K} (k : K) (x : _NotificationListener)
    (d : gmap K (gset _NotificationListener))
  : gmap K (gset _NotificationListener) :=
  alter (λ s, s ∪ {[x]}) k (setdefault k d).

(** [s = d.setdefault(k, set()); s |= new] *)
Definition setdefault_ior `{Countable K} (k : K)
    (new : gset _NotificationListener)
    (d : gmap K (gset _NotificationListener))
  : gmap K (gset _NotificationListener) :=
  alter (λ s, s ∪ new) k (setdefault k d).

(** ** Deferred *)

Definition deferred_state (w : World) (d : did) : Deferred :=
  default NotCalled (deferreds w !! d).

(** [Deferred.callback(result)] *)
Definition Deferred_callback (d : did) (result : Result) (w : World)
  : outcome World :=
  match deferred_state w d with
  | NotCalled => Ok (set_deferreds <[d := Called result]> w)
  | _ => Raise AlreadyCalledError
  end.

(** [Deferred.errback(e)] *)
Definition Deferred_errback (d : did) (e : exn) (w : World)
  : outcome World :=
  match deferred_state w d with
  | NotCalled => Ok (set_deferreds <[d := Failed e]> w)
  | _ => Raise AlreadyCalledError
  end.

(** ** _NotificationListener.notify *)

Definition notify (self : _NotificationListener) (events : list Event)
    (start_token end_token : token) (notifier : World) : outcome World :=
  let result := (events, (start_token, end_token)) in
  w1 ← try_except_AlreadyCalled
         (Deferred_callback (deferred self) result notifier)
         (Ok notifier);
  let w2 :=
    foldl (λ w room, set_rooms_to_listeners (get_discard room self) w)
          w1 (rooms self) in
  Ok (set_user_to_listeners (get_discard (user self) self) w2).

(** ** Notifier *)

(** Python truth value of a list / of an optional string / of an int. *)
Definition list_truthy {A} (xs : list A) : bool :=
  match xs with
  | [] => false
  | _ :: _ => true
  end.

Definition token_truthy (t : option token) : bool :=
  match t with
  | Some s => negb (String.eqb s "")
  | None => false
  end.

Definition nat_truthy (n : nat) : bool := negb (Nat.eqb n 0).

(** [self.event_sources.sources[key]] *)
Fixpoint sources_getitem (srcs : list (string * EventSource)) (key : string)
  : outcome EventSource :=
  match srcs with
  | [] => Raise (KeyError key)
  | (k, s) :: rest => if String.eqb k key then Ok s else sources_getitem rest key
  end.

(** [self.event_sources.sources.values()] *)
Definition sources_values (es : EventSources) : list EventSource :=
  (sources es).*2.

(** [for x in xs: body], where the body may raise. *)
Fixpoint for_each {A} (xs : list A) (body : A → World → outcome World)
    (w : World) : outcome World :=
  match xs with
  | [] => Ok w
  | x :: rest => w' ← body x w; for_each rest body w'
  end.

(** The body shared by the loops of [on_new_room_event] and
    [on_new_user_event]: query the source with the listener's own
    parameters and notify it if anything came back. *)
Definition wake_listener (source : EventSource)
    (listener : _NotificationListener) (w : World) : outcome World :=
  let '(events, end_token) :=
    source (user listener) (from_token listener) (limit listener) in
  if list_truthy events
  then notify listener events (from_token listener) end_token w
  else Ok w.

Section Notifier.
Variable event_sources : EventSources.

(** The set the loop of [on_new_room_event] runs over: copies taken
    before the loop starts. *)
Definition room_event_listeners (room : room_id_t)
    (extra_users : list user_id) (w : World) : gset _NotificationListener :=
  foldl (λ listeners u, listeners ∪ dict_get (user_to_listeners w) u)
        (dict_get (rooms_to_listeners w) room) extra_users.

Definition on_new_room_event (event : Event) (extra_users : list user_id)
    (w : World) : outcome World :=
  source ← sources_getitem (sources event_sources) "room";
  let listeners := room_event_listeners (room_id event) extra_users w in
  for_each (elements listeners) (wake_listener source) w.

Definition user_event_listeners (users : list user_id)
    (rms : list room_id_t) (w : World) : gset _NotificationListener :=
  foldl (λ listeners r, listeners ∪ dict_get (rooms_to_listeners w) r)
        (foldl (λ listeners u, listeners ∪ dict_get (user_to_listeners w) u)
               ∅ users)
        rms.

Definition on_new_user_event (users : list user_id) (rms : list room_id_t)
    (w : World) : outcome World :=
  source ← sources_getitem (sources event_sources) "presence";
  let listeners := user_event_listeners users rms w in
  for_each (elements listeners) (wake_listener source) w.

(** [_timeout_listener] *)
Definition _timeout_listener (listener : _NotificationListener)
    (w : World) : outcome World :=
  notify listener [] (from_token listener) (from_token listener) w.

(** [_register_with_keys] *)
Definition _register_with_keys (listener : _NotificationListener)
    (w : World) : World :=
  let w1 :=
    foldl (λ w room,
             set_rooms_to_listeners (setdefault_add room listener) w)
          w (rooms listener) in
  set_user_to_listeners (setdefault_add (user listener) listener) w1.

(** The loop of [_check_for_updates]: one pass of its body takes the
    accumulated events and the running [from_token] to their next
    values. *)
Definition query_step (u : user_id) (lim : nat)
    (acc : list Event * token) (source : EventSource)
  : list Event * token :=
  let '(events, from_token) := acc in
  let '(stuff, new_token) := source u from_token lim in
  (events ++ stuff, new_token).

Definition query_sources (u : user_id) (lim : nat) (srcs : list EventSource)
    (from : token) : list Event * token :=
  foldl (query_step u lim) ([], from) srcs.

(** [_check_for_updates]; its return value, the listener, is not used by
    its only caller. *)
Definition _check_for_updates (listener : _NotificationListener)
    (w : World) : outcome World :=
  let '(events, from_token') :=
    query_sources (user listener) (limit listener)
                  (sources_values event_sources) (from_token listener) in
  let end_token := from_token' in
  if list_truthy events
  then notify listener events (from_token listener) end_token w
  else Ok w.

(** [reactor.callLater(delay, self._timeout_listener, listener)] *)
Definition callLater (delay : nat) (listener : _NotificationListener)
    (w : World) : World :=
  set_timers (λ ts, ts ++ [(delay, listener)]) w.

(** The listener [_get_events] builds. *)
Definition make_listener (d : did) (u : user_id) (rms : list room_id_t)
    (from : option token) (lim tmo : nat) : _NotificationListener :=
  let from_token :=
    if token_truthy from then default "" from
    else get_current_token event_sources in
  mkListener u rms from_token lim tmo d.

(** [_get_events], instrumented: the worlds it goes through, in order --
    on entry, after the [if timeout:] block, after [_check_for_updates],
    after the [if not timeout:] block.  The division is Python 2's
    integer division. *)
Definition _get_events_trace (d : did) (u : user_id) (rms : list room_id_t)
    (from : option token) (lim tmo : nat) (w : World)
  : outcome (list World) :=
  let listener := make_listener d u rms from lim tmo in
  let w1 :=
    if nat_truthy tmo
    then _register_with_keys listener (callLater (tmo / 1000) listener w)
    else w in
  w2 ← _check_for_updates listener w1;
  w3 ← (if negb (nat_truthy tmo) then _timeout_listener listener w2
        else Ok w2);
  Ok [w; w1; w2; w3].

Definition _get_events (d : did) (u : user_id) (rms : list room_id_t)
    (from : option token) (lim tmo : nat) (w : World) : outcome World :=
  tr ← _get_events_trace d u rms from lim tmo w;
  Ok (List.last tr w).

(** [get_events_for], uninterrupted: a new Deferred, handed to
    [_get_events] and returned to the caller.  With sources that answer
    every query [_get_events] raises nothing ([_get_events_trace_total]
    below), so the errback branch is never taken here; what a failing
    query does to the Deferred and to the registration is
    [failed_get_events], reached through [resume]. *)
Definition new_deferred (w : World) : did := fresh (dom (deferreds w)).

Definition get_events_for (u : user_id) (rms : list room_id_t)
    (from : option token) (lim tmo : nat) (w : World) : did * World :=
  let d := new_deferred w in
  let w0 := set_deferreds <[d := NotCalled]> w in
  match _get_events d u rms from lim tmo w0 with
  | Ok w' => (d, w')
  | Raise e =>
      match Deferred_errback d e w0 with
      | Ok w' => (d, w')
      | Raise _ => (d, w0)
      end
  end.

(** [_user_joined_room] *)
Definition _user_joined_room (u : user_id) (room : room_id_t) (w : World)
  : World :=
  let new_listeners := dict_get (user_to_listeners w) u in
  set_rooms_to_listeners (setdefault_ior room new_listeners) w.

End Notifier.

(** ** Observations on a world *)

(** [listener in self.rooms_to_listeners.get(room, set())] *)
Definition in_room (w : World) (room : room_id_t)
    (l : _NotificationListener) : Prop :=
  l ∈ dict_get (rooms_to_listeners w) room.

(** [listener in self.user_to_listeners.get(user, set())] *)
Definition in_user (w : World) (u : user_id)
    (l : _NotificationListener) : Prop :=
  l ∈ dict_get (user_to_listeners w) u.

(** The listener occurs in no set of either index. *)
Definition absent_from_indices (w : World) (l : _NotificationListener)
  : Prop :=
  (∀ room, ¬ in_room w room l) ∧ (∀ u, ¬ in_user w u l).

(** The Deferred has not fired. *)
Definition unresolved (w : World) (l : _NotificationListener) : Prop :=
  deferred_state w (deferred l) = NotCalled.

(** What [notify] does to the indices, without the Deferred. *)
Definition purge (self : _NotificationListener) (w : World) : World :=
  set_user_to_listeners (get_discard (user self) self)
    (foldl (λ w room, set_rooms_to_listeners (get_discard room self) w)
           w (rooms self)).

(** What [notify] does to the Deferred: the first result stays. *)
Definition deliver (d : did) (result : Result) (w : World) : World :=
  match deferred_state w d with
  | NotCalled => set_deferreds <[d := Called result]> w
  | _ => w
  end.

(** The listener is referenced by the notifier: it sits in an index set or
    in a pending timer call. *)
Definition known (w : World) (l : _NotificationListener) : Prop :=
  (∃ room, in_room w room l) ∨ (∃ u, in_user w u l) ∨
  (∃ delay, (delay, l) ∈ timers w).

(** The source has something for the listener. *)
Definition has_news (source : EventSource) (l : _NotificationListener)
  : bool :=
  list_truthy (source (user l) (from_token l) (limit l)).1.

(** Specification side of the catch-up check (section 4.2, step 3): each
    source consumes the running cursor and returns new events with an
    advanced cursor, which is the input of the next source.  One entry per
    query: the cursor passed in, and the answer. *)
Fixpoint spec_chained_queries (u : user_id) (lim : nat)
    (srcs : list EventSource) (cursor : token)
  : list (token * (list Event * token)) :=
  match srcs with
  | [] => []
  | source :: rest =>
      let answer := source u cursor lim in
      (cursor, answer) :: spec_chained_queries u lim rest answer.2
  end.

(** The listener is in some set of an index. *)
Definition indexed (w : World) (l : _NotificationListener) : Prop :=
  (∃ room, in_room w room l) ∨ (∃ u, in_user w u l).

(** Every listener in an index holds a Deferred that has been allocated, so
    that a listener built around a new Deferred is in no index. *)
Definition indices_allocated (w : World) : Prop :=
  ∀ l, indexed w l → deferred l ∈ dom (deferreds w).

(** The world in which [get_events_for] calls [_get_events]. *)
Definition with_new_deferred (w : World) : World :=
  set_deferreds <[new_deferred w := NotCalled]> w.

(** ** Sample sources and worlds *)

Definition sample_event : Event := mkEvent "!r1" "m.room.message".

(** A source with one event after ["t0"] and nothing after ["t1"]. *)
Definition busy_source : EventSource := λ _ from _,
  if String.eqb from "t0" then ([sample_event], "t1") else ([], from).

Definition quiet_source : EventSource := λ _ from _, ([], from).

Definition busy_sources : EventSources :=
  mkEventSources [("room", busy_source); ("presence", quiet_source)] "t9".

Definition quiet_sources : EventSources :=
  mkEventSources [("room", quiet_source); ("presence", quiet_source)] "t9".

(** A long-poll of ["@alice"] on room ["!r1"] from ["t0"], waiting 5 s,
    while nothing is new; and the listener it leaves registered. *)
Definition sample_waiting : World :=
  (get_events_for quiet_sources "@alice" ["!r1"] (Some "t0") 10 5000
                  Notifier_init).2.

Definition sample_listener : _NotificationListener :=
  mkListener "@alice" ["!r1"] "t0" 10 5000 1%positive.

(** ["@alice"] then joins ["!r2"]: the distributor's signal reaches the
    notifier while the listener waits. *)
Definition sample_joined : World :=
  _user_joined_room "@alice" "!r2" sample_waiting.

(** Sources whose presence stream has the event after ["t0"]. *)
Definition presence_sources : EventSources :=
  mkEventSources [("room", quiet_source); ("presence", busy_source)] "t9".

(** ** Runs of the notifier *)

(** The reactor takes one pending call out of its queue. *)
Definition pop_timer (i : nat) (w : World) : World :=
  set_timers (delete i) w.

(** One step: a call of an entry point, the distributor's
    [user_joined_room] signal, or the reactor running a pending
    [_timeout_listener] call (in any order: time itself is not modelled). *)
Inductive step (es : EventSources) : World → World → Prop :=
| step_get_events_for u rms from lim tmo w :
    step es w (get_events_for es u rms from lim tmo w).2
| step_on_new_room_event event extra_users w w' :
    on_new_room_event es event extra_users w = Ok w' →
    step es w w'
| step_on_new_user_event users rms w w' :
    on_new_user_event es users rms w = Ok w' →
    step es w w'
| step_user_joined_room u room w :
    step es w (_user_joined_room u room w)
| step_timer i delay l w w' :
    timers w !! i = Some (delay, l) →
    _timeout_listener l (pop_timer i w) = Ok w' →
    step es w w'.

Inductive reachable (es : EventSources) : World → Prop :=
| reachable_init : reachable es Notifier_init
| reachable_step w w' : reachable es w → step es w w' → reachable es w'.

(** What every run maintains. *)
Record consistent (w : World) : Prop := mkConsistent {
  (** every referenced listener has an allocated Deferred *)
  known_allocated l : known w l → deferred l ∈ dom (deferreds w);
  (** and no two of them share one *)
  known_deferred_inj l l' :
    known w l → known w l' → deferred l = deferred l' → l = l';
  (** the user index is keyed by the listener's own user *)
  in_user_own l u : in_user w u l → u = user l;
  (** a listener in a set that [notify] visits has not been resolved *)
  own_user_unresolved l : in_user w (user l) l → unresolved w l;
  own_room_unresolved l room :
    room ∈ rooms l → in_room w room l → unresolved w l
}.

(** No referenced listener other than [l] holds the Deferred of [l]. *)
Definition sole_holder (w : World) (l : _NotificationListener) : Prop :=
  ∀ l', known w l' → deferred l' = deferred l → l' = l.

(** ** Calls suspended at a [yield] *)

(** A call of the notifier that waits for a source query.
    - [in_check]: [_get_events] inside the loop of [_check_for_updates]
      (line 219); [waiting] are the sources not answered yet, the first of
      them being the one queried, with the running [from_token]; [events]
      is what has been collected.
    - [in_dispatch]: [on_new_room_event] or [on_new_user_event] inside its
      loop (line 110 or 139); [waiting] are the listeners of the snapshot
      not handled yet, the first of them being the one the source is
      queried for.
    [get_current_token()] is taken to answer at once: before it there is
    no listener and nothing has been changed. *)
Inductive Suspended :=
| in_check (listener : _NotificationListener) (waiting : list EventSource)
           (events : list Event) (from_token : token)
| in_dispatch (source : EventSource)
              (waiting : list _NotificationListener).

(** How a call stands when control returns to the reactor. *)
Inductive Status :=
| Done
| Waiting (s : Suspended)
| Errored (e : exn).

(** The query a suspended call waits for: the source, and the arguments
    of [get_new_events_for_user]. *)
Definition pending_query (s : Suspended)
  : option (EventSource * user_id * token * nat) :=
  match s with
  | in_check l (source :: _) _ from => Some (source, user l, from, limit l)
  | in_dispatch source (l :: _) =>
      Some (source, user l, from_token l, limit l)
  | _ => None
  end.

(** [_get_events(...).addErrback(deferred.errback)]: an exception that
    leaves [_get_events] in world [w] is passed to the caller's Deferred;
    if that one has fired already, [errback] raises and the error stays
    with the reactor. *)
Definition failed_get_events (d : did) (e : exn) (w : World)
  : Status * World :=
  match Deferred_errback d e w with
  | Ok w' => (Done, w')
  | Raise e' => (Errored e', w)
  end.

(** [_get_events] after [_check_for_updates] has returned (lines 185-188). *)
Definition after_check (listener : _NotificationListener) (w : World)
  : outcome World :=
  if negb (nat_truthy (timeout listener))
  then _timeout_listener listener w
  else Ok w.

(** [_check_for_updates] after its loop (lines 229-234), and the rest of
    [_get_events]. *)
Definition finish_check (listener : _NotificationListener)
    (events : list Event) (end_token : token) (w : World)
  : Status * World :=
  match (if list_truthy events
         then notify listener events (from_token listener) end_token w
         else Ok w) with
  | Raise e => failed_get_events (deferred listener) e w
  | Ok w' =>
      match after_check listener w' with
      | Raise e => failed_get_events (deferred listener) e w'
      | Ok w'' => (Done, w'')
      end
  end.

(** The loop of [_check_for_updates] at the head of an iteration: it
    queries the next source and waits, or is over. *)
Definition check_loop (listener : _NotificationListener)
    (waiting : list EventSource) (events : list Event) (from_token : token)
    (w : World) : Status * World :=
  match waiting with
  | [] => finish_check listener events from_token w
  | _ :: _ => (Waiting (in_check listener waiting events from_token), w)
  end.

(** [_get_events] up to its first query (lines 166-183). *)
Definition _get_events_begin (es : EventSources) (d : did) (u : user_id)
    (rms : list room_id_t) (from : option token) (lim tmo : nat)
    (w : World) : Status * World :=
  let listener := make_listener es d u rms from lim tmo in
  let w1 :=
    if nat_truthy tmo
    then _register_with_keys listener (callLater (tmo / 1000) listener w)
    else w in
  check_loop listener (sources_values es) [] (from_token listener) w1.

(** [get_events_for] up to the first query. *)
Definition get_events_for_begin (es : EventSources) (u : user_id)
    (rms : list room_id_t) (from : option token) (lim tmo : nat)
    (w : World) : did * (Status * World) :=
  let d := new_deferred w in
  (d, _get_events_begin es d u rms from lim tmo (with_new_deferred w)).

(** The loop of a dispatch at the head of an iteration. *)
Definition dispatch_loop (source : EventSource)
    (waiting : list _NotificationListener) (w : World) : Status * World :=
  match waiting with
  | [] => (Done, w)
  | _ :: _ => (Waiting (in_dispatch source waiting), w)
  end.

(** [on_new_room_event] up to its first query (lines 96-110). *)
Definition on_new_room_event_begin (es : EventSources) (event : Event)
    (extra_users : list user_id) (w : World) : Status * World :=
  match sources_getitem (sources es) "room" with
  | Raise e => (Errored e, w)
  | Ok source =>
      dispatch_loop source
        (elements (room_event_listeners (room_id event) extra_users w)) w
  end.

(** [on_new_user_event] up to its first query (lines 128-139). *)
Definition on_new_user_event_begin (es : EventSources)
    (users : list user_id) (rms : list room_id_t) (w : World)
  : Status * World :=
  match sources_getitem (sources es) "presence" with
  | Raise e => (Errored e, w)
  | Ok source =>
      dispatch_loop source (elements (user_event_listeners users rms w)) w
  end.

(** A suspended call goes on in world [w] with what its query came back
    with: [Ok] an answer, or [Raise] a failure, which the [yield] raises
    inside the call.  [None]: the call was not waiting for anything. *)
Definition resume (s : Suspended) (answer : outcome (list Event * token))
    (w : World) : option (Status * World) :=
  match s, answer with
  | in_check l (_ :: rest) events _, Ok (stuff, new_token) =>
      Some (check_loop l rest (events ++ stuff) new_token w)
  | in_check l (_ :: _) _ _, Raise e =>
      Some (failed_get_events (deferred l) e w)
  | in_dispatch source (l :: rest), Ok (events, end_token) =>
      match (if list_truthy events
             then notify l events (from_token l) end_token w
             else Ok w) with
      | Ok w' => Some (dispatch_loop source rest w')
      | Raise e => Some (Errored e, w)
      end
  | in_dispatch _ (_ :: _), Raise e => Some (Errored e, w)
  | _, _ => None
  end.

(** The notifier with the calls that are suspended. *)
Record System := mkSystem {
  notifier : World;
  suspended : list Suspended
}.

Definition System_init : System := mkSystem Notifier_init [].

(** A call that waits joins the suspended ones. *)
Definition park (st : Status) (calls : list Suspended) : list Suspended :=
  match st with
  | Waiting s => calls ++ [s]
  | _ => calls
  end.

(** One step of the reactor: a call of an entry point up to its first
    query, a join, a timer, or the answer to one suspended call -- any
    answer or failure, in any order. *)
Inductive async_step (es : EventSources) : System → System → Prop :=
| async_get_events_for u rms from lim tmo sys :
    async_step es sys
      (mkSystem (get_events_for_begin es u rms from lim tmo
                   (notifier sys)).2.2
                (park (get_events_for_begin es u rms from lim tmo
                         (notifier sys)).2.1
                      (suspended sys)))
| async_on_new_room_event event extra_users sys :
    async_step es sys
      (mkSystem (on_new_room_event_begin es event extra_users
                   (notifier sys)).2
                (park (on_new_room_event_begin es event extra_users
                         (notifier sys)).1
                      (suspended sys)))
| async_on_new_user_event users rms sys :
    async_step es sys
      (mkSystem (on_new_user_event_begin es users rms (notifier sys)).2
                (park (on_new_user_event_begin es users rms
                         (notifier sys)).1
                      (suspended sys)))
| async_user_joined_room u room sys :
    async_step es sys
      (mkSystem (_user_joined_room u room (notifier sys)) (suspended sys))
| async_timer i delay l sys w' :
    timers (notifier sys) !! i = Some (delay, l) →
    _timeout_listener l (pop_timer i (notifier sys)) = Ok w' →
    async_step es sys (mkSystem w' (suspended sys))
| async_resume i s answer st w' sys :
    suspended sys !! i = Some s →
    resume s answer (notifier sys) = Some (st, w') →
    async_step es sys (mkSystem w' (park st (delete i (suspended sys)))).

Inductive async_reachable (es : EventSources) : System → Prop :=
| async_reachable_init : async_reachable es System_init
| async_reachable_step sys sys' :
    async_reachable es sys → async_step es sys sys' →
    async_reachable es sys'.

(** The listeners a suspended call holds. *)
Definition held_by (s : Suspended) (l : _NotificationListener) : Prop :=
  match s with
  | in_check l' _ _ _ => l = l'
  | in_dispatch _ waiting => l ∈ waiting
  end.

(** The listener is referenced by the notifier or by a suspended call. *)
Definition referenced (sys : System) (l : _NotificationListener) : Prop :=
  known (notifier sys) l ∨ ∃ s, s ∈ suspended sys ∧ held_by s l.

(** The Deferred of the listener has been called with a result. *)
Definition delivered (w : World) (l : _NotificationListener) : Prop :=
  ∃ result, deferred_state w (deferred l) = Called result.

(** What every run with suspended calls maintains. *)
Record coherent (sys : System) : Prop := mkCoherent {
  referenced_allocated l :
    referenced sys l → deferred l ∈ dom (deferreds (notifier sys));
  referenced_deferred_inj l l' :
    referenced sys l → referenced sys l' →
    deferred l = deferred l' → l = l';
  coherent_in_user_own l u : in_user (notifier sys) u l → u = user l;
  (** a listener in a set that [notify] visits has not been delivered to *)
  own_user_undelivered l :
    in_user (notifier sys) (user l) l → ¬ delivered (notifier sys) l;
  own_room_undelivered l room :
    room ∈ rooms l → in_room (notifier sys) room l →
    ¬ delivered (notifier sys) l
}.

(** * Properties *)

(** ** Dict and set primitives, lemmas *)

Section dict_lemmas.
Context {K : Type} {K_eq : EqDecision K} {K_countable : Countable K}.
Implicit Types (d : gmap K (gset _NotificationListener)) (k : K).
Implicit Types (x y : _NotificationListener).

Lemma dict_get_get_discard d k k' x y :
  y ∈ dict_get (get_discard k x d) k' ↔
  y ∈ dict_get d k' ∧ ¬ (k = k' ∧ y = x).
Proof.
  unfold dict_get, get_discard.
  destruct (decide (k = k')) as [->|Hne].
  - rewrite lookup_alter_eq. destruct (d !! k') as [s|]; simpl; set_solver.
  - rewrite lookup_alter_ne by done. naive_solver.
Qed.

Lemma get_discard_absent d k x :
  x ∉ dict_get d k → get_discard k x d = d.
Proof.
  unfold dict_get, get_discard. intros Hx.
  apply map_eq. intros k'.
  destruct (decide (k = k')) as [->|Hne].
  - rewrite lookup_alter_eq. destruct (d !! k') as [s|] eqn:E; simpl in *;
      [|done].
    f_equal. set_solver.
  - by rewrite lookup_alter_ne.
Qed.

Lemma dom_get_discard d k x : dom (get_discard k x d) = dom d.
Proof. unfold get_discard. apply dom_alter_L. Qed.

Lemma dict_get_setdefault d k k' : dict_get (setdefault k d) k' = dict_get d k'.
Proof.
  unfold dict_get, setdefault.
  destruct (d !! k) eqn:E; [done|].
  destruct (decide (k = k')) as [->|Hne].
  - by rewrite lookup_insert_eq, E.
  - by rewrite lookup_insert_ne.
Qed.

Lemma setdefault_is_Some d k : is_Some (setdefault k d !! k).
Proof.
  unfold setdefault. destruct (d !! k) eqn:E; [by rewrite E|].
  by rewrite lookup_insert_eq.
Qed.

Lemma dict_get_setdefault_ior d k k' new y :
  y ∈ dict_get (setdefault_ior k new d) k' ↔
  y ∈ dict_get d k' ∨ (k = k' ∧ y ∈ new).
Proof.
  unfold setdefault_ior.
  destruct (decide (k = k')) as [->|Hne].
  - destruct (setdefault_is_Some d k') as [s Hs].
    pose proof (dict_get_setdefault d k' k') as Hg.
    unfold dict_get in *. rewrite lookup_alter_eq, Hs in *. simpl in *.
    rewrite <- Hg. set_solver.
  - pose proof (dict_get_setdefault d k k') as Hg.
    unfold dict_get in *. rewrite lookup_alter_ne by done.
    rewrite Hg. naive_solver.
Qed.

Lemma dict_get_setdefault_add d k k' x y :
  y ∈ dict_get (setdefault_add k x d) k' ↔
  y ∈ dict_get d k' ∨ (k = k' ∧ y = x).
Proof.
  unfold setdefault_add.
  change (alter (λ s, s ∪ {[x]}) k (setdefault k d))
    with (setdefault_ior k {[x]} d).
  rewrite dict_get_setdefault_ior. set_solver.
Qed.

Lemma setdefault_ior_is_Some d k new : is_Some (setdefault_ior k new d !! k).
Proof.
  unfold setdefault_ior. rewrite lookup_alter_eq.
  destruct (setdefault_is_Some d k) as [s ->]. by eexists.
Qed.
End dict_lemmas.

(** ** [notify]: what it returns and what it leaves behind *)

Lemma foldl_set_rooms
    (f : room_id_t → gmap room_id_t (gset _NotificationListener) →
         gmap room_id_t (gset _NotificationListener))
    (rs : list room_id_t) (w : World) :
  foldl (λ w room, set_rooms_to_listeners (f room) w) w rs =
  set_rooms_to_listeners (λ m, foldl (λ m room, f room m) m rs) w.
Proof.
  revert w. induction rs as [|r rs IH]; intros w; simpl.
  - by destruct w.
  - by rewrite IH.
Qed.

Lemma dict_get_foldl_discard (self y : _NotificationListener)
    (rs : list room_id_t) (m : gmap room_id_t (gset _NotificationListener))
    (r : room_id_t) :
  y ∈ dict_get (foldl (λ m room, get_discard room self m) m rs) r ↔
  y ∈ dict_get m r ∧ ¬ (r ∈ rs ∧ y = self).
Proof.
  revert m. induction rs as [|r0 rs IH]; intros m; simpl.
  - set_solver.
  - rewrite IH, dict_get_get_discard. set_solver.
Qed.

Lemma dom_foldl_discard (self : _NotificationListener)
    (rs : list room_id_t) (m : gmap room_id_t (gset _NotificationListener)) :
  dom (foldl (λ m room, get_discard room self m) m rs) = dom m.
Proof.
  revert m. induction rs as [|r0 rs IH]; intros m; simpl; [done|].
  by rewrite IH, dom_get_discard.
Qed.

Lemma foldl_discard_absent (self : _NotificationListener)
    (rs : list room_id_t) (m : gmap room_id_t (gset _NotificationListener)) :
  (∀ r, r ∈ rs → self ∉ dict_get m r) →
  foldl (λ m room, get_discard room self m) m rs = m.
Proof.
  induction rs as [|r0 rs IH]; intros Habs; simpl; [done|].
  rewrite get_discard_absent by (apply Habs; set_solver).
  apply IH. intros r Hr. apply Habs. set_solver.
Qed.

Lemma in_room_purge self w r y :
  in_room (purge self w) r y ↔ in_room w r y ∧ ¬ (r ∈ rooms self ∧ y = self).
Proof.
  unfold in_room, purge. rewrite foldl_set_rooms. simpl.
  apply dict_get_foldl_discard.
Qed.

Lemma in_user_purge self w u y :
  in_user (purge self w) u y ↔ in_user w u y ∧ ¬ (u = user self ∧ y = self).
Proof.
  unfold in_user, purge. rewrite foldl_set_rooms. simpl.
  rewrite dict_get_get_discard. naive_solver.
Qed.

Lemma deferreds_purge self w : deferreds (purge self w) = deferreds w.
Proof. unfold purge. by rewrite foldl_set_rooms. Qed.

Lemma timers_purge self w : timers (purge self w) = timers w.
Proof. unfold purge. by rewrite foldl_set_rooms. Qed.

Lemma deferred_state_purge self w d :
  deferred_state (purge self w) d = deferred_state w d.
Proof. unfold deferred_state. by rewrite deferreds_purge. Qed.

Lemma dom_rooms_purge self w :
  dom (rooms_to_listeners (purge self w)) = dom (rooms_to_listeners w).
Proof.
  unfold purge. rewrite foldl_set_rooms. simpl. apply dom_foldl_discard.
Qed.

Lemma dom_users_purge self w :
  dom (user_to_listeners (purge self w)) = dom (user_to_listeners w).
Proof.
  unfold purge. rewrite foldl_set_rooms. simpl. apply dom_get_discard.
Qed.

(** A listener that is in none of the sets [notify] visits is purged for
    free. *)
Lemma purge_absent self w :
  ¬ in_user w (user self) self →
  (∀ r, r ∈ rooms self → ¬ in_room w r self) →
  purge self w = w.
Proof.
  intros Hu Hr. unfold purge. rewrite foldl_set_rooms.
  destruct w as [rm um ds ts]. unfold set_rooms_to_listeners,
    set_user_to_listeners, in_user, in_room in *. simpl in *.
  rewrite foldl_discard_absent by done.
  by rewrite get_discard_absent.
Qed.

Lemma rooms_deliver d res w :
  rooms_to_listeners (deliver d res w) = rooms_to_listeners w.
Proof. unfold deliver. by destruct (deferred_state w d). Qed.

Lemma users_deliver d res w :
  user_to_listeners (deliver d res w) = user_to_listeners w.
Proof. unfold deliver. by destruct (deferred_state w d). Qed.

Lemma timers_deliver d res w : timers (deliver d res w) = timers w.
Proof. unfold deliver. by destruct (deferred_state w d). Qed.

Lemma deferred_state_deliver d res w d' :
  deferred_state (deliver d res w) d' =
  if decide (d' = d)
  then match deferred_state w d with
       | NotCalled => Called res
       | st => st
       end
  else deferred_state w d'.
Proof.
  unfold deliver. case_decide as Hd.
  - subst d'. destruct (deferred_state w d) eqn:E; try done.
    unfold deferred_state. simpl. by rewrite lookup_insert_eq.
  - destruct (deferred_state w d) eqn:E; try done.
    unfold deferred_state. simpl. by rewrite lookup_insert_ne.
Qed.

Lemma deliver_resolved d res w :
  deferred_state w d ≠ NotCalled → deliver d res w = w.
Proof. unfold deliver. by destruct (deferred_state w d). Qed.

(** [notify] never raises: the only exception its body can meet is the
    [AlreadyCalledError] it catches. *)
Lemma notify_eq self events start_token end_token w :
  notify self events start_token end_token w =
  Ok (purge self (deliver (deferred self) (events, (start_token, end_token)) w)).
Proof.
  unfold notify, Deferred_callback, deliver, purge.
  by destruct (deferred_state w (deferred self)).
Qed.

(** Effect of [notify] on the index sets and on the Deferreds. *)
Lemma notify_in_room self events s e w w' r y :
  notify self events s e w = Ok w' →
  in_room w' r y ↔ in_room w r y ∧ ¬ (r ∈ rooms self ∧ y = self).
Proof.
  rewrite notify_eq. intros [= <-]. rewrite in_room_purge.
  unfold in_room. by rewrite rooms_deliver.
Qed.

Lemma notify_in_user self events s e w w' u y :
  notify self events s e w = Ok w' →
  in_user w' u y ↔ in_user w u y ∧ ¬ (u = user self ∧ y = self).
Proof.
  rewrite notify_eq. intros [= <-]. rewrite in_user_purge.
  unfold in_user. by rewrite users_deliver.
Qed.

Lemma notify_deferred_state self events s e w w' d :
  notify self events s e w = Ok w' →
  deferred_state w' d =
  if decide (d = deferred self)
  then match deferred_state w (deferred self) with
       | NotCalled => Called (events, (s, e))
       | st => st
       end
  else deferred_state w d.
Proof.
  rewrite notify_eq. intros [= <-].
  by rewrite deferred_state_purge, deferred_state_deliver.
Qed.

Lemma notify_timers self events s e w w' :
  notify self events s e w = Ok w' → timers w' = timers w.
Proof.
  rewrite notify_eq. intros [= <-]. by rewrite timers_purge, timers_deliver.
Qed.

(** A resolved listener that is in none of the sets [notify] visits:
    [notify] changes nothing and raises nothing. *)
Lemma notify_resolved_noop self events s e w :
  ¬ unresolved w self →
  ¬ in_user w (user self) self →
  (∀ r, r ∈ rooms self → ¬ in_room w r self) →
  notify self events s e w = Ok w.
Proof.
  intros Hres Hu Hr. rewrite notify_eq.
  rewrite deliver_resolved by done. by rewrite purge_absent.
Qed.

(** ** Resolution of one listener *)

(** C9. Resolving a listener [self] takes only [self] out of the indices:
    any other listener that was in the set of a room or of a user before
    the resolution is still in it afterwards (and no listener is added to
    any set). *)
Theorem notify_removes_only_self self events start_token end_token w :
  ∃ w', notify self events start_token end_token w = Ok w' ∧
    ∀ other, other ≠ self →
      (∀ room, in_room w room other ↔ in_room w' room other) ∧
      (∀ u, in_user w u other ↔ in_user w' u other).
Proof.
  destruct (notify self events start_token end_token w) as [w'|] eqn:E;
    [|by rewrite notify_eq in E].
  exists w'. split; [done|]. intros other Hne. split.
  - intros room. rewrite (notify_in_room _ _ _ _ _ _ _ _ E). naive_solver.
  - intros u. rewrite (notify_in_user _ _ _ _ _ _ _ _ E). naive_solver.
Qed.

(** C2. Resolving a listener a second time, with whatever payload, is a
    silent no-op: the second [notify] raises nothing and returns the world
    unchanged, so the Deferred still holds the result it held after the
    first [notify] -- the first payload if the listener was unresolved
    then.  The same holds when either call is the timeout path. *)
Theorem second_notify_is_noop self w events1 s1 e1 events2 s2 e2 :
  ∃ w1,
    notify self events1 s1 e1 w = Ok w1 ∧
    notify self events2 s2 e2 w1 = Ok w1 ∧
    _timeout_listener self w1 = Ok w1 ∧
    (unresolved w self →
     deferred_state w1 (deferred self) = Called (events1, (s1, e1))) ∧
    (∃ w2, _timeout_listener self w = Ok w2 ∧
           notify self events2 s2 e2 w2 = Ok w2 ∧
           (unresolved w self →
            deferred_state w2 (deferred self) =
              Called ([], (from_token self, from_token self)))).
Proof.
  assert (Hgen : ∀ ev s e, ∃ w1, notify self ev s e w = Ok w1 ∧
            (∀ ev' s' e', notify self ev' s' e' w1 = Ok w1) ∧
            (unresolved w self →
             deferred_state w1 (deferred self) = Called (ev, (s, e)))).
  { intros ev s e.
    destruct (notify self ev s e w) as [w1|] eqn:E;
      [|by rewrite notify_eq in E].
    exists w1. split; [done|].
    pose proof (notify_deferred_state _ _ _ _ _ _ (deferred self) E) as Hd.
    rewrite decide_True in Hd by done.
    split.
    - intros ev' s' e'. apply notify_resolved_noop.
      + unfold unresolved. rewrite Hd.
        by destruct (deferred_state w (deferred self)).
      + rewrite (notify_in_user _ _ _ _ _ _ _ _ E). naive_solver.
      + intros r Hr. rewrite (notify_in_room _ _ _ _ _ _ _ _ E).
        naive_solver.
    - intros Hun. rewrite Hd. unfold unresolved in Hun. by rewrite Hun. }
  destruct (Hgen events1 s1 e1) as (w1 & E1 & Hno1 & Hd1).
  exists w1. split; [done|]. split; [apply Hno1|].
  split; [apply Hno1|]. split; [done|].
  destruct (Hgen [] (from_token self) (from_token self))
    as (w2 & E2 & Hno2 & Hd2).
  exists w2. split; [done|]. split; [apply Hno2|done].
Qed.

(** The timeout path on an unresolved listener: an empty event list with
    [start = end = from_token], the cursor the listener was built with; the
    listener leaves the set of its user and the sets of its rooms, and no
    other set. *)
Lemma timeout_resolves_with_from_token l w :
  unresolved w l →
  ∃ w', _timeout_listener l w = Ok w' ∧
    deferred_state w' (deferred l) =
      Called ([], (from_token l, from_token l)) ∧
    ¬ in_user w' (user l) l ∧
    (∀ room, room ∈ rooms l → ¬ in_room w' room l) ∧
    ((∀ room, in_room w room l → room ∈ rooms l) →
     (∀ u, in_user w u l → u = user l) →
     absent_from_indices w' l).
Proof.
  intros Hun. unfold _timeout_listener.
  destruct (notify l [] (from_token l) (from_token l) w) as [w'|] eqn:E;
    [|by rewrite notify_eq in E].
  exists w'. split; [done|].
  pose proof (notify_deferred_state _ _ _ _ _ _ (deferred l) E) as Hd.
  rewrite decide_True in Hd by done. unfold unresolved in Hun.
  rewrite Hun in Hd.
  split; [done|]. split.
  { rewrite (notify_in_user _ _ _ _ _ _ _ _ E). naive_solver. }
  split.
  { intros room Hr. rewrite (notify_in_room _ _ _ _ _ _ _ _ E).
    naive_solver. }
  intros Hrooms Husers. split.
  - intros room. rewrite (notify_in_room _ _ _ _ _ _ _ _ E). naive_solver.
  - intros u. rewrite (notify_in_user _ _ _ _ _ _ _ _ E). naive_solver.
Qed.

(** ** [_user_joined_room] *)

(** C8. After [_user_joined_room user room], every listener of the user's
    set is in the room's set, the room has an entry, the user index is what
    it was, and the room's set has kept all its members; the sets of other
    rooms, the Deferreds and the timers are what they were. *)
Theorem user_joined_room_merges u room w :
  let w' := _user_joined_room u room w in
  (∀ l, in_user w u l → in_room w' room l) ∧
  is_Some (rooms_to_listeners w' !! room) ∧
  user_to_listeners w' = user_to_listeners w ∧
  (∀ l, in_room w room l → in_room w' room l) ∧
  (∀ l, in_room w' room l ↔ in_room w room l ∨ in_user w u l) ∧
  (∀ room' l, room' ≠ room → in_room w' room' l ↔ in_room w room' l) ∧
  deferreds w' = deferreds w ∧ timers w' = timers w.
Proof.
  unfold _user_joined_room, in_room, in_user. simpl.
  repeat split; try done.
  - intros l Hl. rewrite dict_get_setdefault_ior. by right.
  - apply setdefault_ior_is_Some.
  - intros l Hl. rewrite dict_get_setdefault_ior. by left.
  - rewrite dict_get_setdefault_ior. naive_solver.
  - rewrite dict_get_setdefault_ior. naive_solver.
  - rewrite dict_get_setdefault_ior. naive_solver.
  - rewrite dict_get_setdefault_ior. naive_solver.
Qed.

(** ** The catch-up check *)

Lemma query_sources_unfold u lim srcs from :
  query_sources u lim srcs from = foldl (query_step u lim) ([], from) srcs.
Proof. done. Qed.

(** The loop, started from any accumulator, against the chain of queries
    as the specification words it. *)
Lemma foldl_query_step_chain u lim srcs events from :
  let calls := spec_chained_queries u lim srcs from in
  foldl (query_step u lim) (events, from) srcs =
  (events ++ concat (map (λ c, c.2.1) calls),
   List.last (map (λ c, c.2.2) calls) from).
Proof.
  revert events from. induction srcs as [|s srcs IH]; intros events from.
  - simpl. by rewrite app_nil_r.
  - cbn [spec_chained_queries foldl]. unfold query_step at 2.
    destruct (s u from lim) as [stuff new_token] eqn:Es.
    rewrite IH. cbn [map concat fst snd]. rewrite app_assoc.
    f_equal.
    destruct (spec_chained_queries u lim srcs new_token) as [|c calls]; [done|].
    cbn [map]. generalize (c.2.2 :: map (λ c0, c0.2.2) calls).
    intros l0. destruct l0; [done|]. cbn [List.last].
    generalize t l0. clear. intros t l0. revert t.
    induction l0 as [|x l0 IH]; intros t; [done|]. apply IH.
Qed.

Lemma spec_chained_queries_length u lim srcs from :
  length (spec_chained_queries u lim srcs from) = length srcs.
Proof.
  revert from. induction srcs as [|s srcs IH]; intros from; simpl; [done|].
  by rewrite IH.
Qed.

Lemma spec_chained_queries_lookup u lim srcs from i c :
  spec_chained_queries u lim srcs from !! i = Some c →
  ∃ source, srcs !! i = Some source ∧ c.2 = source u c.1 lim.
Proof.
  revert from i. induction srcs as [|s srcs IH]; intros from i; [done|].
  destruct i as [|i]; simpl.
  - intros [= <-]. by exists s.
  - apply IH.
Qed.

Lemma spec_chained_queries_chained u lim srcs from i c c' :
  spec_chained_queries u lim srcs from !! i = Some c →
  spec_chained_queries u lim srcs from !! S i = Some c' →
  c'.1 = c.2.2.
Proof.
  revert from i. induction srcs as [|s srcs IH]; intros from i; [done|].
  destruct i as [|i]; cbn [spec_chained_queries lookup list_lookup].
  - intros [= <-]. destruct srcs as [|s' srcs]; [done|].
    simpl. by intros [= <-].
  - apply IH.
Qed.

(** C4. [_check_for_updates] queries the sources one after the other, in
    the order of [sources.values()], with the cursor chained: there is one
    query per source; the first gets the listener's [from_token]; every
    later one gets the cursor its predecessor returned; each answer is what
    that source returns for the listener's user, that cursor and the
    listener's limit; the events are the answers' events concatenated in
    that order and the end cursor is the cursor of the last answer; and the
    listener is notified with these events, its [from_token] and that end
    cursor exactly when the events are not empty. *)
Theorem check_for_updates_chains_cursor es l w :
  let srcs := sources_values es in
  let calls :=
    spec_chained_queries (user l) (limit l) srcs (from_token l) in
  let events := concat (map (λ c, c.2.1) calls) in
  let end_token := List.last (map (λ c, c.2.2) calls) (from_token l) in
  length calls = length srcs ∧
  (∀ c, calls !! 0 = Some c → c.1 = from_token l) ∧
  (∀ i c c', calls !! i = Some c → calls !! S i = Some c' →
     c'.1 = c.2.2) ∧
  (∀ i c, calls !! i = Some c →
     ∃ source, srcs !! i = Some source ∧
               c.2 = source (user l) c.1 (limit l)) ∧
  query_sources (user l) (limit l) srcs (from_token l) =
    (events, end_token) ∧
  _check_for_updates es l w =
    (if list_truthy events
     then notify l events (from_token l) end_token w
     else Ok w).
Proof.
  intros srcs calls events end_token.
  assert (Hq : query_sources (user l) (limit l) srcs (from_token l) =
               (events, end_token)).
  { rewrite query_sources_unfold. apply foldl_query_step_chain. }
  split; [apply spec_chained_queries_length|].
  split.
  { subst calls. destruct srcs as [|s srcs']; [done|].
    simpl. by intros c [= <-]. }
  split; [apply spec_chained_queries_chained|].
  split; [apply spec_chained_queries_lookup|].
  split; [done|].
  unfold _check_for_updates. fold srcs. by rewrite Hq.
Qed.

(** ** Registration *)

Lemma dict_get_foldl_add (l y : _NotificationListener)
    (rs : list room_id_t) (m : gmap room_id_t (gset _NotificationListener))
    (r : room_id_t) :
  y ∈ dict_get (foldl (λ m room, setdefault_add room l m) m rs) r ↔
  y ∈ dict_get m r ∨ (r ∈ rs ∧ y = l).
Proof.
  revert m. induction rs as [|r0 rs IH]; intros m; simpl.
  - set_solver.
  - rewrite IH, dict_get_setdefault_add. set_solver.
Qed.

Lemma in_room_register l w r y :
  in_room (_register_with_keys l w) r y ↔
  in_room w r y ∨ (r ∈ rooms l ∧ y = l).
Proof.
  unfold in_room, _register_with_keys. rewrite foldl_set_rooms. simpl.
  apply dict_get_foldl_add.
Qed.

Lemma in_user_register l w u y :
  in_user (_register_with_keys l w) u y ↔
  in_user w u y ∨ (u = user l ∧ y = l).
Proof.
  unfold in_user, _register_with_keys. rewrite foldl_set_rooms. simpl.
  rewrite dict_get_setdefault_add. naive_solver.
Qed.

Lemma deferreds_register l w :
  deferreds (_register_with_keys l w) = deferreds w.
Proof. unfold _register_with_keys. by rewrite foldl_set_rooms. Qed.

Lemma timers_register l w :
  timers (_register_with_keys l w) = timers w.
Proof. unfold _register_with_keys. by rewrite foldl_set_rooms. Qed.

Lemma deferred_state_register l w d :
  deferred_state (_register_with_keys l w) d = deferred_state w d.
Proof. unfold deferred_state. by rewrite deferreds_register. Qed.

(** ** [get_events_for] *)

Lemma list_truthy_false {A} (xs : list A) : list_truthy xs = false ↔ xs = [].
Proof. by destruct xs. Qed.

Lemma list_truthy_true {A} (xs : list A) : list_truthy xs = true ↔ xs ≠ [].
Proof. by destruct xs. Qed.

Lemma nat_truthy_false n : nat_truthy n = false ↔ n = 0.
Proof. unfold nat_truthy. destruct n; naive_solver. Qed.

Lemma nat_truthy_true n : nat_truthy n = true ↔ n ≠ 0.
Proof. unfold nat_truthy. destruct n; naive_solver. Qed.

Lemma check_for_updates_eq es l w :
  _check_for_updates es l w =
  let r := query_sources (user l) (limit l) (sources_values es)
                         (from_token l) in
  if list_truthy r.1 then notify l r.1 (from_token l) r.2 w else Ok w.
Proof.
  unfold _check_for_updates.
  by destruct (query_sources _ _ _ _) as [events end_token].
Qed.

(** [_get_events] raises nothing. *)
Lemma _get_events_trace_total es d u rms from lim tmo w :
  ∃ w1 w2 w3, _get_events_trace es d u rms from lim tmo w = Ok [w; w1; w2; w3].
Proof.
  unfold _get_events_trace.
  set (l := make_listener es d u rms from lim tmo).
  set (w1 := if nat_truthy tmo then _ else _).
  rewrite check_for_updates_eq. cbn zeta.
  destruct (list_truthy _).
  - rewrite notify_eq. cbn. destruct (nat_truthy tmo); cbn.
    + eauto.
    + unfold _timeout_listener. rewrite notify_eq. cbn. eauto.
  - cbn. destruct (nat_truthy tmo); cbn.
    + eauto.
    + unfold _timeout_listener. rewrite notify_eq. cbn. eauto.
Qed.

Lemma new_deferred_fresh w : new_deferred w ∉ dom (deferreds w).
Proof. unfold new_deferred. apply is_fresh. Qed.

Lemma deferred_state_with_new_deferred w :
  deferred_state (with_new_deferred w) (new_deferred w) = NotCalled.
Proof.
  unfold deferred_state, with_new_deferred. simpl.
  by rewrite lookup_insert_eq.
Qed.

(** A listener built around the new Deferred is in no index. *)
Lemma new_listener_absent w l :
  indices_allocated w → deferred l = new_deferred w →
  absent_from_indices (with_new_deferred w) l.
Proof.
  intros Hall Hd. split.
  - intros room Hin. apply (new_deferred_fresh w). rewrite <- Hd.
    apply Hall. left. by exists room.
  - intros u Hin. apply (new_deferred_fresh w). rewrite <- Hd.
    apply Hall. right. by exists u.
Qed.

Lemma get_events_for_eq es u rms from lim tmo w tr :
  _get_events_trace es (new_deferred w) u rms from lim tmo
                    (with_new_deferred w) = Ok tr →
  get_events_for es u rms from lim tmo w =
  (new_deferred w, List.last tr (with_new_deferred w)).
Proof.
  intros Htr. unfold get_events_for, _get_events.
  fold (with_new_deferred w). by rewrite Htr.
Qed.

(** With [timeout = 0] the trace of [_get_events] is: no registration, the
    check, the unconditional timeout call. *)
Lemma _get_events_trace_poll_once es d u rms from lim w :
  let l := make_listener es d u rms from lim 0 in
  ∃ w2 w3,
    _get_events_trace es d u rms from lim 0 w = Ok [w; w; w2; w3] ∧
    _check_for_updates es l w = Ok w2 ∧
    _timeout_listener l w2 = Ok w3.
Proof.
  intros l. unfold _get_events_trace. fold l. cbn [nat_truthy Nat.eqb negb].
  destruct (_check_for_updates es l w) as [w2|] eqn:E2.
  2: { rewrite check_for_updates_eq in E2. cbn zeta in E2.
       destruct (list_truthy _); [by rewrite notify_eq in E2|done]. }
  cbn. destruct (_timeout_listener l w2) as [w3|] eqn:E3.
  2: { unfold _timeout_listener in E3. by rewrite notify_eq in E3. }
  cbn. eauto.
Qed.

(** With a non-zero timeout: the timer and the registration, the check,
    nothing more. *)
Lemma _get_events_trace_waiting es d u rms from lim tmo w :
  tmo ≠ 0 →
  let l := make_listener es d u rms from lim tmo in
  let w1 := _register_with_keys l (callLater (tmo / 1000) l w) in
  ∃ w2,
    _get_events_trace es d u rms from lim tmo w = Ok [w; w1; w2; w2] ∧
    _check_for_updates es l w1 = Ok w2.
Proof.
  intros Htmo l w1. unfold _get_events_trace. fold l.
  apply nat_truthy_true in Htmo. rewrite Htmo. fold w1.
  destruct (_check_for_updates es l w1) as [w2|] eqn:E2.
  2: { rewrite check_for_updates_eq in E2. cbn zeta in E2.
       destruct (list_truthy _); [by rewrite notify_eq in E2|done]. }
  cbn. eauto.
Qed.

(** [notify] on a listener that is in no index leaves the indices alone. *)
Lemma notify_absent_indices self events s e w w' :
  absent_from_indices w self →
  notify self events s e w = Ok w' →
  rooms_to_listeners w' = rooms_to_listeners w ∧
  user_to_listeners w' = user_to_listeners w.
Proof.
  intros [Hr Hu]. rewrite notify_eq. intros [= <-].
  rewrite purge_absent.
  - by rewrite rooms_deliver, users_deliver.
  - unfold in_user. rewrite users_deliver. apply Hu.
  - intros r _. unfold in_room. rewrite rooms_deliver. apply Hr.
Qed.

Lemma absent_from_indices_same w w' l :
  rooms_to_listeners w' = rooms_to_listeners w →
  user_to_listeners w' = user_to_listeners w →
  absent_from_indices w l → absent_from_indices w' l.
Proof.
  unfold absent_from_indices, in_room, in_user. by intros -> ->.
Qed.

(** C5. A call of [get_events_for] with [timeout = 0] never puts its
    listener into an index: in every world the call goes through, the
    listener is in no set, both indices are what they were before the call
    and no timer has been added.  If the check finds no events, the
    listener is resolved within the call with an empty event list and
    [start = end = from_token]. *)
Theorem poll_once_never_registers es u rms from lim w :
  indices_allocated w →
  let d := new_deferred w in
  let l := make_listener es d u rms from lim 0 in
  let r := query_sources (user l) (limit l) (sources_values es)
                         (from_token l) in
  ∃ tr w',
    _get_events_trace es d u rms from lim 0 (with_new_deferred w) = Ok tr ∧
    get_events_for es u rms from lim 0 w = (d, w') ∧
    w' ∈ tr ∧
    (∀ v, v ∈ tr →
       absent_from_indices v l ∧
       rooms_to_listeners v = rooms_to_listeners w ∧
       user_to_listeners v = user_to_listeners w ∧
       timers v = timers w) ∧
    (r.1 = [] →
     deferred_state w' d = Called ([], (from_token l, from_token l))).
Proof.
  intros Hall d l r.
  destruct (_get_events_trace_poll_once es d u rms from lim
              (with_new_deferred w)) as (w2 & w3 & Htr & Hchk & Htmo).
  fold l in Hchk, Htmo.
  exists [with_new_deferred w; with_new_deferred w; w2; w3], w3.
  split; [done|]. split; [by rewrite (get_events_for_eq _ _ _ _ _ _ _ _ Htr)|].
  split; [set_solver|].
  assert (Habs0 : absent_from_indices (with_new_deferred w) l)
    by by apply new_listener_absent.
  assert (H2 : rooms_to_listeners w2 = rooms_to_listeners w ∧
               user_to_listeners w2 = user_to_listeners w ∧
               timers w2 = timers w).
  { rewrite check_for_updates_eq in Hchk. cbn zeta in Hchk.
    destruct (list_truthy _); [|by injection Hchk as <-].
    destruct (notify_absent_indices _ _ _ _ _ _ Habs0 Hchk) as [-> ->].
    by rewrite (notify_timers _ _ _ _ _ _ Hchk). }
  destruct H2 as (Hr2 & Hu2 & Ht2).
  assert (Habs2 : absent_from_indices w2 l).
  { eapply absent_from_indices_same; [| |exact Habs0]; by etrans. }
  assert (H3 : rooms_to_listeners w3 = rooms_to_listeners w ∧
               user_to_listeners w3 = user_to_listeners w ∧
               timers w3 = timers w).
  { unfold _timeout_listener in Htmo.
    destruct (notify_absent_indices _ _ _ _ _ _ Habs2 Htmo) as [-> ->].
    by rewrite (notify_timers _ _ _ _ _ _ Htmo). }
  destruct H3 as (Hr3 & Hu3 & Ht3).
  split.
  { intros v Hv.
    assert (Hcases : v = with_new_deferred w ∨ v = w2 ∨ v = w3)
      by set_solver.
    destruct Hcases as [->|[->| ->]]; try done.
    split; [|done]. eapply absent_from_indices_same; [| |exact Habs0];
      by etrans. }
  intros Hnil. rewrite check_for_updates_eq in Hchk. cbn zeta in Hchk.
  fold r in Hchk. rewrite Hnil in Hchk. cbn in Hchk. injection Hchk as <-.
  rewrite (notify_deferred_state _ _ _ _ _ _ d Htmo).
  rewrite decide_True by done.
  change (deferred l) with (new_deferred w).
  by rewrite deferred_state_with_new_deferred.
Qed.

(** C10. A call of [get_events_for] with [timeout = 0] whose check returns
    events: the check resolves the returned Deferred with these events,
    the listener's [from_token] and the end cursor of the chain; the
    timeout call that follows raises nothing, changes nothing, and the
    Deferred keeps that result. *)
Theorem poll_once_with_news_keeps_events es u rms from lim w :
  let d := new_deferred w in
  let l := make_listener es d u rms from lim 0 in
  let r := query_sources (user l) (limit l) (sources_values es)
                         (from_token l) in
  r.1 ≠ [] →
  ∃ w2,
    _check_for_updates es l (with_new_deferred w) = Ok w2 ∧
    deferred_state w2 d = Called (r.1, (from_token l, r.2)) ∧
    _timeout_listener l w2 = Ok w2 ∧
    _get_events_trace es d u rms from lim 0 (with_new_deferred w) =
      Ok [with_new_deferred w; with_new_deferred w; w2; w2] ∧
    get_events_for es u rms from lim 0 w = (d, w2).
Proof.
  intros d l r Hne.
  destruct (_get_events_trace_poll_once es d u rms from lim
              (with_new_deferred w)) as (w2 & w3 & Htr & Hchk & Htmo).
  fold l in Hchk, Htmo.
  assert (Hchk' := Hchk).
  rewrite check_for_updates_eq in Hchk'. cbn zeta in Hchk'. fold r in Hchk'.
  apply list_truthy_true in Hne. rewrite Hne in Hchk'.
  assert (Hd2 : deferred_state w2 d = Called (r.1, (from_token l, r.2))).
  { rewrite (notify_deferred_state _ _ _ _ _ _ d Hchk').
    rewrite decide_True by done.
    change (deferred l) with (new_deferred w).
    by rewrite deferred_state_with_new_deferred. }
  assert (Hnoop : _timeout_listener l w2 = Ok w2).
  { unfold _timeout_listener. apply notify_resolved_noop.
    - unfold unresolved. change (deferred l) with d. by rewrite Hd2.
    - rewrite (notify_in_user _ _ _ _ _ _ _ _ Hchk'). naive_solver.
    - intros room Hr. rewrite (notify_in_room _ _ _ _ _ _ _ _ Hchk').
      naive_solver. }
  rewrite Hnoop in Htmo. injection Htmo as <-.
  exists w2. repeat split; try done.
  by rewrite (get_events_for_eq _ _ _ _ _ _ _ _ Htr).
Qed.

(** ** What every run maintains *)

Lemma consistent_init : consistent Notifier_init.
Proof.
  assert (Hk : ∀ l, ¬ known Notifier_init l).
  { intros l [[r Hr]|[[u Hu]|[dl Ht]]].
    - unfold in_room, dict_get in Hr. simpl in Hr.
      rewrite lookup_empty in Hr. set_solver.
    - unfold in_user, dict_get in Hu. simpl in Hu.
      rewrite lookup_empty in Hu. set_solver.
    - simpl in Ht. set_solver. }
  split.
  - intros l Hl. by destruct (Hk l).
  - intros l l' Hl. by destruct (Hk l).
  - intros l u Hu. destruct (Hk l). right. left. by exists u.
  - intros l Hu. destruct (Hk l). right. left. by exists (user l).
  - intros l r _ Hr. destruct (Hk l). left. by exists r.
Qed.

Lemma consistent_sole_holder w l : consistent w → known w l → sole_holder w l.
Proof. intros Hc Hl l' Hl' Hd. by apply (known_deferred_inj w Hc). Qed.

Lemma notify_known self events s e w w' y :
  notify self events s e w = Ok w' → known w' y → known w y.
Proof.
  intros E [[r Hr]|[[u Hu]|[dl Ht]]].
  - left. exists r. by apply (notify_in_room _ _ _ _ _ _ _ _ E) in Hr as [? _].
  - right. left. exists u.
    by apply (notify_in_user _ _ _ _ _ _ _ _ E) in Hu as [? _].
  - right. right. exists dl. by rewrite (notify_timers _ _ _ _ _ _ E) in Ht.
Qed.

Lemma notify_sole_holder self events s e w w' y :
  notify self events s e w = Ok w' → sole_holder w y → sole_holder w' y.
Proof.
  intros E Hy l' Hl'. apply Hy. by eapply notify_known.
Qed.

Lemma notify_dom_deferreds self events s e w w' d :
  notify self events s e w = Ok w' →
  d ∈ dom (deferreds w) → d ∈ dom (deferreds w').
Proof.
  rewrite notify_eq. intros [= <-]. rewrite deferreds_purge.
  unfold deliver. destruct (deferred_state w (deferred self)); try done.
  simpl. rewrite dom_insert. set_solver.
Qed.

(** [notify] keeps a world consistent when the listener is the only
    referenced holder of its Deferred. *)
Lemma notify_consistent self events s e w w' :
  consistent w → sole_holder w self →
  notify self events s e w = Ok w' → consistent w'.
Proof.
  intros Hc Hsole E.
  assert (Hother : ∀ y, known w y → y ≠ self → unresolved w y →
                        unresolved w' y).
  { intros y Hy Hne Hun. unfold unresolved.
    rewrite (notify_deferred_state _ _ _ _ _ _ _ E).
    rewrite decide_False; [done|]. intros Hd. by apply Hne, Hsole. }
  split.
  - intros l Hl. eapply notify_dom_deferreds; [done|].
    apply (known_allocated w Hc). by eapply notify_known.
  - intros l l' Hl Hl'. apply (known_deferred_inj w Hc);
      by eapply notify_known.
  - intros l u Hu. apply (in_user_own w Hc).
    by apply (notify_in_user _ _ _ _ _ _ _ _ E) in Hu as [? _].
  - intros l Hu. apply (notify_in_user _ _ _ _ _ _ _ _ E) in Hu as [Hu Hne].
    apply Hother.
    + right. left. by exists (user l).
    + naive_solver.
    + by apply (own_user_unresolved w Hc).
  - intros l r Hr Hin.
    apply (notify_in_room _ _ _ _ _ _ _ _ E) in Hin as [Hin Hne].
    apply Hother.
    + left. by exists r.
    + naive_solver.
    + by apply (own_room_unresolved w Hc l r).
Qed.

Lemma wake_listener_eq source l w :
  wake_listener source l w =
  if has_news source l
  then notify l (source (user l) (from_token l) (limit l)).1 (from_token l)
              (source (user l) (from_token l) (limit l)).2 w
  else Ok w.
Proof.
  unfold wake_listener, has_news.
  by destruct (source (user l) (from_token l) (limit l)).
Qed.

Lemma wake_listener_total source l w : ∃ w', wake_listener source l w = Ok w'.
Proof.
  rewrite wake_listener_eq. destruct (has_news source l); [|eauto].
  rewrite notify_eq. eauto.
Qed.

Lemma for_each_wake_consistent source ls w :
  consistent w → (∀ l, l ∈ ls → sole_holder w l) →
  ∃ w', for_each ls (wake_listener source) w = Ok w' ∧ consistent w'.
Proof.
  revert w. induction ls as [|l ls IH]; intros w Hc Hls; cbn.
  - eauto.
  - destruct (wake_listener_total source l w) as [w1 E1]. rewrite E1. cbn.
    rewrite wake_listener_eq in E1.
    destruct (has_news source l).
    + apply IH.
      * eapply notify_consistent; [done| |done]. apply Hls. set_solver.
      * intros y Hy. eapply notify_sole_holder; [done|]. apply Hls.
        set_solver.
    + injection E1 as <-. apply IH; [done|]. intros y Hy. apply Hls.
      set_solver.
Qed.

Lemma elem_of_foldl_union {K : Type} `{Countable K}
    (d : gmap K (gset _NotificationListener)) (ks : list K)
    (init : gset _NotificationListener) (l : _NotificationListener) :
  l ∈ foldl (λ acc k, acc ∪ dict_get d k) init ks ↔
  l ∈ init ∨ ∃ k, k ∈ ks ∧ l ∈ dict_get d k.
Proof.
  revert init. induction ks as [|k ks IH]; intros init; simpl.
  - set_solver.
  - rewrite IH. set_solver.
Qed.

Lemma elem_of_room_event_listeners room extra_users w l :
  l ∈ room_event_listeners room extra_users w ↔
  in_room w room l ∨ ∃ u, u ∈ extra_users ∧ in_user w u l.
Proof. unfold room_event_listeners. apply elem_of_foldl_union. Qed.

Lemma elem_of_user_event_listeners users rms w l :
  l ∈ user_event_listeners users rms w ↔
  (∃ u, u ∈ users ∧ in_user w u l) ∨ (∃ r, r ∈ rms ∧ in_room w r l).
Proof.
  unfold user_event_listeners. rewrite !elem_of_foldl_union. set_solver.
Qed.

Lemma on_new_room_event_consistent es event extra_users w w' :
  consistent w → on_new_room_event es event extra_users w = Ok w' →
  consistent w'.
Proof.
  intros Hc. unfold on_new_room_event.
  destruct (sources_getitem (sources es) "room") as [source|]; [|done].
  cbn.
  destruct (for_each_wake_consistent source
              (elements (room_event_listeners (room_id event) extra_users w))
              w Hc) as (w1 & -> & Hc1).
  - intros l Hl. apply consistent_sole_holder; [done|].
    apply elem_of_elements, elem_of_room_event_listeners in Hl.
    destruct Hl as [Hl|(u & _ & Hl)]; [left; by eexists|].
    right. left. by eexists.
  - by intros [= <-].
Qed.

Lemma on_new_user_event_consistent es users rms w w' :
  consistent w → on_new_user_event es users rms w = Ok w' →
  consistent w'.
Proof.
  intros Hc. unfold on_new_user_event.
  destruct (sources_getitem (sources es) "presence") as [source|]; [|done].
  cbn.
  destruct (for_each_wake_consistent source
              (elements (user_event_listeners users rms w))
              w Hc) as (w1 & -> & Hc1).
  - intros l Hl. apply consistent_sole_holder; [done|].
    apply elem_of_elements, elem_of_user_event_listeners in Hl.
    destruct Hl as [(u & _ & Hl)|(r & _ & Hl)].
    + right. left. by eexists.
    + left. by eexists.
  - by intros [= <-].
Qed.

Lemma user_joined_room_consistent u room w :
  consistent w → consistent (_user_joined_room u room w).
Proof.
  intros Hc.
  destruct (user_joined_room_merges u room w)
    as (_ & _ & Hus & _ & Hroom & Hother & Hds & Hts).
  set (w' := _user_joined_room u room w) in *.
  assert (Hin : ∀ r l, in_room w' r l → in_room w r l ∨ in_user w u l ∧ r = room).
  { intros r l Hl. destruct (decide (r = room)) as [->|Hne].
    - apply Hroom in Hl. naive_solver.
    - apply Hother in Hl; [|done]. by left. }
  assert (Hk : ∀ l, known w' l → known w l).
  { intros l [[r Hr]|[[u' Hu]|[dl Ht]]].
    - destruct (Hin r l Hr) as [?|[? _]]; [left; by eexists|].
      right. left. by eexists.
    - right. left. exists u'. unfold in_user in *. by rewrite Hus in Hu.
    - right. right. exists dl. by rewrite Hts in Ht. }
  assert (Hun : ∀ l, unresolved w l → unresolved w' l).
  { intros l. unfold unresolved, deferred_state. by rewrite Hds. }
  split.
  - intros l Hl. rewrite Hds. apply (known_allocated w Hc), Hk, Hl.
  - intros l l' Hl Hl'. apply (known_deferred_inj w Hc); by apply Hk.
  - intros l u' Hu. apply (in_user_own w Hc). unfold in_user in *.
    by rewrite Hus in Hu.
  - intros l Hu. apply Hun, (own_user_unresolved w Hc). unfold in_user in *.
    by rewrite Hus in Hu.
  - intros l r Hr Hl. apply Hun. destruct (Hin r l Hl) as [?|[Hu _]].
    + by apply (own_room_unresolved w Hc l r).
    + apply (own_user_unresolved w Hc).
      by rewrite <- (in_user_own w Hc l u Hu).
Qed.

Lemma pop_timer_known i w l : known (pop_timer i w) l → known w l.
Proof.
  intros [Hr|[Hu|[dl Ht]]]; [by left|by right; left|].
  right. right. exists dl. simpl in Ht.
  apply list_elem_of_lookup in Ht as [j Hj].
  apply list_elem_of_lookup.
  destruct (decide (j < i)).
  - exists j. by rewrite list_lookup_delete_lt in Hj by done.
  - exists (S j). by rewrite list_lookup_delete_ge in Hj by lia.
Qed.

Lemma pop_timer_consistent i w : consistent w → consistent (pop_timer i w).
Proof.
  intros Hc. split.
  - intros l Hl. apply (known_allocated w Hc), pop_timer_known with i, Hl.
  - intros l l' Hl Hl'.
    apply (known_deferred_inj w Hc); by eapply pop_timer_known.
  - apply (in_user_own w Hc).
  - apply (own_user_unresolved w Hc).
  - apply (own_room_unresolved w Hc).
Qed.

Lemma timer_step_consistent i delay l w w' :
  consistent w → timers w !! i = Some (delay, l) →
  _timeout_listener l (pop_timer i w) = Ok w' → consistent w'.
Proof.
  intros Hc Hi E. eapply notify_consistent; [|  |exact E].
  - by apply pop_timer_consistent.
  - intros l' Hl' Hd. apply (known_deferred_inj w Hc); [| |done].
    + by eapply pop_timer_known.
    + right. right. exists delay. apply list_elem_of_lookup. by exists i.
Qed.

Lemma with_new_deferred_known w l : known (with_new_deferred w) l ↔ known w l.
Proof. done. Qed.

Lemma with_new_deferred_state w d :
  d ∈ dom (deferreds w) →
  deferred_state (with_new_deferred w) d = deferred_state w d.
Proof.
  intros Hd. unfold deferred_state, with_new_deferred. simpl.
  rewrite lookup_insert_ne; [done|]. intros <-.
  by apply (new_deferred_fresh w).
Qed.

Lemma with_new_deferred_consistent w :
  consistent w → consistent (with_new_deferred w).
Proof.
  intros Hc.
  assert (Hun : ∀ l, known w l → unresolved w l →
                     unresolved (with_new_deferred w) l).
  { intros l Hl Hu. unfold unresolved.
    rewrite with_new_deferred_state; [done|].
    by apply (known_allocated w Hc). }
  split.
  - intros l Hl. simpl. rewrite dom_insert.
    apply elem_of_union_r, (known_allocated w Hc), Hl.
  - apply (known_deferred_inj w Hc).
  - apply (in_user_own w Hc).
  - intros l Hu. apply Hun; [right; left; by eexists|].
    by apply (own_user_unresolved w Hc).
  - intros l r Hr Hin. apply Hun; [left; by eexists|].
    by apply (own_room_unresolved w Hc l r).
Qed.

Lemma new_listener_sole_holder w l :
  consistent w → deferred l = new_deferred w →
  sole_holder (with_new_deferred w) l.
Proof.
  intros Hc Hd l' Hl' Hd'. exfalso. apply (new_deferred_fresh w).
  rewrite <- Hd, <- Hd'. by apply (known_allocated w Hc).
Qed.

Lemma check_for_updates_consistent es l w w' :
  consistent w → sole_holder w l →
  _check_for_updates es l w = Ok w' →
  consistent w' ∧ sole_holder w' l.
Proof.
  intros Hc Hs. rewrite check_for_updates_eq. cbn zeta.
  destruct (list_truthy _); [|by intros [= <-]].
  intros E. split; [by eapply notify_consistent|].
  by eapply notify_sole_holder.
Qed.

(** Registration of a listener that holds a new, unfired Deferred. *)
Lemma register_consistent delay l w :
  consistent w → sole_holder w l → ¬ known w l →
  deferred l ∈ dom (deferreds w) → unresolved w l →
  consistent (_register_with_keys l (callLater delay l w)) ∧
  sole_holder (_register_with_keys l (callLater delay l w)) l.
Proof.
  intros Hc Hs Hnk Hd Hun.
  set (w1 := _register_with_keys l (callLater delay l w)).
  assert (Hk : ∀ y, known w1 y → known w y ∨ y = l).
  { intros y [[r Hr]|[[u Hu]|[dl Ht]]].
    - apply in_room_register in Hr as [Hr|[_ ->]]; [|by right].
      left. left. by exists r.
    - apply in_user_register in Hu as [Hu|[_ ->]]; [|by right].
      left. right. left. by exists u.
    - subst w1. rewrite timers_register in Ht. simpl in Ht.
      apply elem_of_app in Ht as [Ht|Ht].
      + left. right. right. by exists dl.
      + right. set_solver. }
  assert (Hst : ∀ y, unresolved w y → unresolved w1 y).
  { intros y. unfold unresolved. subst w1.
    by rewrite deferred_state_register. }
  split; [split|].
  - intros y Hy. subst w1. rewrite deferreds_register. simpl.
    destruct (Hk y Hy) as [Hy'| ->]; [|done].
    by apply (known_allocated w Hc).
  - intros y y' Hy Hy' Hdd.
    destruct (Hk y Hy) as [Hy1| ->], (Hk y' Hy') as [Hy1'| ->]; try done.
    + by apply (known_deferred_inj w Hc).
    + by apply Hs.
    + symmetry. by apply Hs.
  - intros y u Hu. apply in_user_register in Hu as [Hu|[-> ->]]; [|done].
    by apply (in_user_own w Hc).
  - intros y Hu. apply Hst.
    apply in_user_register in Hu as [Hu|[_ ->]]; [|done].
    by apply (own_user_unresolved w Hc).
  - intros y r Hr Hin. apply Hst.
    apply in_room_register in Hin as [Hin|[_ ->]]; [|done].
    by apply (own_room_unresolved w Hc y r).
  - intros y Hy Hdd. destruct (Hk y Hy) as [Hy'| ->]; [|done].
    by apply Hs.
Qed.

Lemma get_events_for_consistent es u rms from lim tmo w :
  consistent w → consistent (get_events_for es u rms from lim tmo w).2.
Proof.
  intros Hc.
  set (d := new_deferred w).
  set (l := make_listener es d u rms from lim tmo).
  pose proof (with_new_deferred_consistent w Hc) as Hc0.
  pose proof (new_listener_sole_holder w l Hc eq_refl) as Hs0.
  destruct (decide (tmo = 0)) as [->|Htmo].
  - destruct (_get_events_trace_poll_once es d u rms from lim
                (with_new_deferred w)) as (w2 & w3 & Htr & Hchk & Ht).
    rewrite (get_events_for_eq _ _ _ _ _ _ _ _ Htr). simpl.
    destruct (check_for_updates_consistent _ _ _ _ Hc0 Hs0 Hchk)
      as [Hc2 Hs2].
    by eapply notify_consistent.
  - destruct (_get_events_trace_waiting es d u rms from lim tmo
                (with_new_deferred w) Htmo) as (w2 & Htr & Hchk).
    rewrite (get_events_for_eq _ _ _ _ _ _ _ _ Htr). simpl.
    destruct (register_consistent (tmo / 1000) l (with_new_deferred w))
      as [Hc1 Hs1]; try done.
    + intros Hk. apply (new_deferred_fresh w).
      by apply (known_allocated w Hc l).
    + simpl. rewrite dom_insert. set_solver.
    + apply deferred_state_with_new_deferred.
    + by destruct (check_for_updates_consistent _ _ _ _ Hc1 Hs1 Hchk).
Qed.

(** Every world of a run is consistent. *)
Theorem reachable_consistent es w : reachable es w → consistent w.
Proof.
  induction 1 as [|w w' _ IH Hstep]; [apply consistent_init|].
  destruct Hstep.
  - by apply get_events_for_consistent.
  - by eapply on_new_room_event_consistent.
  - by eapply on_new_user_event_consistent.
  - by apply user_joined_room_consistent.
  - by eapply timer_step_consistent.
Qed.

Lemma consistent_indices_allocated w : consistent w → indices_allocated w.
Proof.
  intros Hc l [Hr|Hu]; apply (known_allocated w Hc); [by left|by right; left].
Qed.

(** ** Waking listeners on an event *)

(** The loop of [on_new_room_event] / [on_new_user_event] over any list of
    listeners: which listeners leave which sets, and which Deferreds
    change. *)
Lemma for_each_wake_spec source ls w :
  ∃ w', for_each ls (wake_listener source) w = Ok w' ∧
    (∀ r y, in_room w' r y ↔
       in_room w r y ∧ ¬ (y ∈ ls ∧ has_news source y = true ∧ r ∈ rooms y)) ∧
    (∀ u y, in_user w' u y ↔
       in_user w u y ∧ ¬ (y ∈ ls ∧ has_news source y = true ∧ u = user y)) ∧
    timers w' = timers w ∧
    (∀ d, deferred_state w d ≠ NotCalled →
       deferred_state w' d = deferred_state w d) ∧
    (∀ d, (∀ y, y ∈ ls → has_news source y = true → deferred y ≠ d) →
       deferred_state w' d = deferred_state w d) ∧
    (∀ y, y ∈ ls → has_news source y = true → unresolved w y →
       (∀ y', y' ∈ ls → deferred y' = deferred y → y' = y) →
       deferred_state w' (deferred y) =
         Called ((source (user y) (from_token y) (limit y)).1,
                 (from_token y,
                  (source (user y) (from_token y) (limit y)).2))).
Proof.
  revert w. induction ls as [|l ls IH]; intros w; cbn.
  - exists w. split; [done|]. repeat split; try done; set_solver.
  - destruct (wake_listener_total source l w) as [w1 E1]. rewrite E1. cbn.
    destruct (IH w1) as (w' & E & Hroom & Huser & Htim & Hkeep & Hframe & Hset).
    exists w'. split; [done|].
    rewrite wake_listener_eq in E1.
    destruct (has_news source l) eqn:Hnews.
    + pose proof (notify_deferred_state _ _ _ _ _ _ (deferred l) E1) as Hdl.
      rewrite decide_True in Hdl by done.
      split; [|split; [|split; [|split; [|split]]]].
      * intros r y. rewrite Hroom, (notify_in_room _ _ _ _ _ _ _ _ E1).
        split.
        -- intros [[Hin Hn1] Hn2]. split; [done|].
           intros [[->|Hy]%elem_of_cons [Hn Hr]]; naive_solver.
        -- intros [Hin Hn]. split; [split; [done|]|].
           ++ intros [Hr ->]. apply Hn. split; [left|done].
           ++ intros [Hy ?]. apply Hn. split; [by right|done].
      * intros u y. rewrite Huser, (notify_in_user _ _ _ _ _ _ _ _ E1).
        split.
        -- intros [[Hin Hn1] Hn2]. split; [done|].
           intros [[->|Hy]%elem_of_cons [Hn Hr]]; naive_solver.
        -- intros [Hin Hn]. split; [split; [done|]|].
           ++ intros [Hr ->]. apply Hn. split; [left|done].
           ++ intros [Hy ?]. apply Hn. split; [by right|done].
      * by rewrite Htim, (notify_timers _ _ _ _ _ _ E1).
      * intros d Hd.
        assert (Hd1 : deferred_state w1 d = deferred_state w d).
        { rewrite (notify_deferred_state _ _ _ _ _ _ d E1).
          case_decide as Heq; [|done]. subst d.
          by destruct (deferred_state w (deferred l)). }
        rewrite Hkeep; by rewrite Hd1.
      * intros d Hd. rewrite Hframe.
        -- rewrite (notify_deferred_state _ _ _ _ _ _ d E1).
           rewrite decide_False; [done|]. intros ->.
           apply (Hd l); [left|done|done].
        -- intros y Hy. apply Hd. by right.
      * intros y Hy Hn Hun Hinj.
        destruct (decide (y = l)) as [->|Hne].
        -- rewrite Hkeep; rewrite Hdl; unfold unresolved in Hun;
             by rewrite Hun.
        -- apply elem_of_cons in Hy as [?|Hy]; [done|].
           apply Hset; [done|done| |].
           ++ unfold unresolved.
              rewrite (notify_deferred_state _ _ _ _ _ _ _ E1).
              rewrite decide_False; [done|]. intros Hd.
              apply Hne. symmetry. apply Hinj; [left|done].
           ++ intros y' Hy'. apply Hinj. by right.
    + injection E1 as <-.
      split; [|split; [|split; [|split; [|split]]]].
      * intros r y. rewrite Hroom. split.
        -- intros [Hin Hn]. split; [done|].
           intros [[->|Hy]%elem_of_cons [Hn' Hr]]; [congruence|].
           naive_solver.
        -- intros [Hin Hn]. split; [done|]. intros [Hy ?]. apply Hn.
           split; [by right|done].
      * intros u y. rewrite Huser. split.
        -- intros [Hin Hn]. split; [done|].
           intros [[->|Hy]%elem_of_cons [Hn' Hr]]; [congruence|].
           naive_solver.
        -- intros [Hin Hn]. split; [done|]. intros [Hy ?]. apply Hn.
           split; [by right|done].
      * done.
      * done.
      * intros d Hd. apply Hframe. intros y Hy. apply Hd. by right.
      * intros y Hy Hn Hun Hinj.
        apply elem_of_cons in Hy as [->|Hy]; [congruence|].
        apply Hset; [done|done|done|]. intros y' Hy'. apply Hinj. by right.
Qed.

(** ** Sample runs *)

Ltac by_compute := unfold in_room, in_user, unresolved; compute_done.

Lemma reachable_sample_waiting : reachable quiet_sources sample_waiting.
Proof.
  eapply reachable_step; [apply reachable_init|].
  apply (step_get_events_for quiet_sources "@alice" ["!r1"] (Some "t0")
           10 5000 Notifier_init).
Qed.

Lemma reachable_sample_joined : reachable quiet_sources sample_joined.
Proof.
  eapply reachable_step; [apply reachable_sample_waiting|].
  apply step_user_joined_room.
Qed.

(** C1. A run in which a resolved listener stays in an index.  The
    listener of ["@alice"] waits on ["!r1"]; the user joins ["!r2"], which puts
    the listener into the set of ["!r2"] although ["!r2"] is not one of
    its [rooms]; its deadline fires.  The listener is then resolved, with
    the timeout payload, gone from the sets of ["@alice"] and of ["!r1"] --
    and still in the set of ["!r2"]. *)
Theorem resolved_listener_left_in_joined_room :
  in_user sample_waiting "@alice" sample_listener ∧
  in_room sample_joined "!r2" sample_listener ∧
  ("!r2" ∉ rooms sample_listener) ∧
  timers sample_joined !! 0 = Some (5, sample_listener) ∧
  ∃ w,
    _timeout_listener sample_listener (pop_timer 0 sample_joined) = Ok w ∧
    reachable quiet_sources w ∧
    deferred_state w (deferred sample_listener) = Called ([], ("t0", "t0")) ∧
    ¬ in_user w "@alice" sample_listener ∧
    ¬ in_room w "!r1" sample_listener ∧
    in_room w "!r2" sample_listener ∧
    ¬ absent_from_indices w sample_listener.
Proof.
  split; [by_compute|]. split; [by_compute|].
  split; [by_compute|]. split; [by_compute|].
  pose proof (notify_eq sample_listener [] "t0" "t0"
                (pop_timer 0 sample_joined)) as E.
  eexists. split; [exact E|].
  assert (Hin : in_room
    (purge sample_listener
       (deliver (deferred sample_listener) ([], ("t0", "t0"))
          (pop_timer 0 sample_joined))) "!r2" sample_listener)
    by by_compute.
  split.
  { eapply reachable_step; [apply reachable_sample_joined|].
    eapply (step_timer _ 0 5 sample_listener); [by_compute|exact E]. }
  split; [by_compute|].
  split.
  { rewrite (notify_in_user _ _ _ _ _ _ _ _ E). intros [_ Hn]. apply Hn.
    split; reflexivity. }
  split.
  { rewrite (notify_in_room _ _ _ _ _ _ _ _ E). intros [_ Hn]. apply Hn.
    split; [by_compute|reflexivity]. }
  split; [exact Hin|].
  intros [Hr _]. exact (Hr "!r2" Hin).
Qed.


(** ** The theorems at sample inputs *)

Lemma indices_allocated_sample_waiting : indices_allocated sample_waiting.
Proof.
  apply consistent_indices_allocated, (reachable_consistent quiet_sources).
  apply reachable_sample_waiting.
Qed.

Lemma poll_once_never_registers_witness :
  indices_allocated sample_waiting ∧
  ∃ w',
    get_events_for quiet_sources "@bob" ["!r1"] (Some "t0") 10 0
                   sample_waiting = (2%positive, w') ∧
    rooms_to_listeners w' = rooms_to_listeners sample_waiting ∧
    user_to_listeners w' = user_to_listeners sample_waiting ∧
    deferred_state w' 2%positive = Called ([], ("t0", "t0")).
Proof.
  split; [exact indices_allocated_sample_waiting|].
  destruct (poll_once_never_registers quiet_sources "@bob" ["!r1"]
              (Some "t0") 10 sample_waiting indices_allocated_sample_waiting)
    as (tr & w' & _ & E & Hin & Hall & Hres).
  exists w'. split; [exact E|].
  destruct (Hall w' Hin) as (_ & Hr & Hu & _).
  split; [exact Hr|]. split; [exact Hu|].
  apply Hres. reflexivity.
Defined.

Lemma poll_once_with_news_keeps_events_witness :
  ∃ w',
    get_events_for busy_sources "@bob" ["!r1"] (Some "t0") 10 0
                   sample_waiting = (2%positive, w') ∧
    deferred_state w' 2%positive = Called ([sample_event], ("t0", "t1")).
Proof.
  destruct (poll_once_with_news_keeps_events busy_sources "@bob" ["!r1"]
              (Some "t0") 10 sample_waiting)
    as (w2 & _ & Hd & _ & _ & E); [by vm_compute|].
  exists w2. split; [exact E|exact Hd].
Defined.

(** * Further properties of the notifier *)


(** ** Missing sources and events without news *)

Lemma sources_getitem_Ok srcs key :
  key ∈ srcs.*1 → ∃ source, sources_getitem srcs key = Ok source.
Proof.
  induction srcs as [|[k s] srcs IH]; simpl.
  - intros Hin. by apply elem_of_nil in Hin.
  - intros Hin. destruct (String.eqb_spec k key) as [->|Hne]; [eauto|].
    apply IH. apply elem_of_cons in Hin as [?|?]; [congruence|done].
Qed.

Lemma sources_getitem_Raise srcs key :
  key ∉ srcs.*1 → sources_getitem srcs key = Raise (KeyError key).
Proof.
  induction srcs as [|[k s] srcs IH]; simpl; [done|].
  intros Hin. destruct (String.eqb_spec k key) as [->|Hne].
  - exfalso. apply Hin. by left.
  - apply IH. intros Hin'. apply Hin. by right.
Qed.

Lemma for_each_wake_total source ls w :
  ∃ w', for_each ls (wake_listener source) w = Ok w'.
Proof.
  destruct (for_each_wake_spec source ls w) as (w' & E & _). eauto.
Qed.

Lemma dispatch_room_total es event extra_users w :
  "room" ∈ (sources es).*1 →
  ∃ w', on_new_room_event es event extra_users w = Ok w'.
Proof.
  intros Hin. unfold on_new_room_event.
  destruct (sources_getitem_Ok _ _ Hin) as [source ->]. cbn.
  apply for_each_wake_total.
Qed.

Lemma for_each_wake_no_news source ls w :
  (∀ l, l ∈ ls → has_news source l = false) →
  for_each ls (wake_listener source) w = Ok w.
Proof.
  induction ls as [|l ls IH]; intros Hno; cbn; [done|].
  rewrite wake_listener_eq, Hno by by left. cbn.
  apply IH. intros y Hy. apply Hno. by right.
Qed.

(** X3. A room event that brings no news to any candidate changes nothing
    at all: when the room source answers every listener in the set of the
    event's room and in the sets of [extra_users] with an empty list, the
    world after [on_new_room_event] is the world before it -- no entry is
    created for a room or user without one, no Deferred fires, no timer
    moves.  In particular an event for a room and users nobody listens to
    is a no-op. *)
Theorem on_new_room_event_without_news_changes_nothing
    es event extra_users w source :
  sources_getitem (sources es) "room" = Ok source →
  (∀ l, in_room w (room_id event) l ∨
        (∃ u, u ∈ extra_users ∧ in_user w u l) →
        (source (user l) (from_token l) (limit l)).1 = []) →
  on_new_room_event es event extra_users w = Ok w.
Proof.
  intros Hsrc Hno. unfold on_new_room_event. rewrite Hsrc. cbn.
  apply for_each_wake_no_news. intros l Hl.
  apply elem_of_elements, elem_of_room_event_listeners in Hl.
  unfold has_news. apply list_truthy_false. by apply Hno.
Qed.

Lemma on_new_room_event_without_news_changes_nothing_witness :
  sources_getitem (sources quiet_sources) "room" = Ok quiet_source ∧
  in_room sample_joined "!r2" sample_listener ∧
  on_new_room_event quiet_sources (mkEvent "!r2" "m.room.member")
                    ["@alice"; "@nobody"] sample_joined = Ok sample_joined.
Proof.
  split; [reflexivity|]. split; [by_compute|].
  apply (on_new_room_event_without_news_changes_nothing quiet_sources
           (mkEvent "!r2" "m.room.member") ["@alice"; "@nobody"]
           sample_joined quiet_source eq_refl).
  intros l _. reflexivity.
Defined.

(** ** What [get_events_for] hands back and what it leaves alone *)

(** The two shapes of a call. *)
Lemma get_events_for_cases es u rms from lim tmo w :
  let d := new_deferred w in
  let l := make_listener es d u rms from lim tmo in
  let w0 := with_new_deferred w in
  ∃ w', get_events_for es u rms from lim tmo w = (d, w') ∧
    ((tmo = 0 ∧ ∃ w2, _check_for_updates es l w0 = Ok w2 ∧
                      _timeout_listener l w2 = Ok w') ∨
     (tmo ≠ 0 ∧
      _check_for_updates es l
        (_register_with_keys l (callLater (tmo / 1000) l w0)) = Ok w')).
Proof.
  intros d l w0. destruct (decide (tmo = 0)) as [->|Htmo].
  - destruct (_get_events_trace_poll_once es d u rms from lim w0)
      as (w2 & w3 & Htr & Hchk & Ht).
    exists w3. split; [by rewrite (get_events_for_eq _ _ _ _ _ _ _ _ Htr)|].
    left. eauto.
  - destruct (_get_events_trace_waiting es d u rms from lim tmo w0 Htmo)
      as (w2 & Htr & Hchk).
    exists w2. split; [by rewrite (get_events_for_eq _ _ _ _ _ _ _ _ Htr)|].
    right. eauto.
Qed.





(** ** Along a run *)

Lemma notify_keeps_fired self events s e w w' d :
  notify self events s e w = Ok w' →
  deferred_state w d ≠ NotCalled →
  deferred_state w' d = deferred_state w d.
Proof.
  intros E Hd. rewrite (notify_deferred_state _ _ _ _ _ _ _ E).
  case_decide as Heq; [|done]. subst d.
  by destruct (deferred_state w (deferred self)).
Qed.

Lemma check_for_updates_keeps_fired es l w w' d :
  _check_for_updates es l w = Ok w' →
  deferred_state w d ≠ NotCalled →
  deferred_state w' d = deferred_state w d.
Proof.
  rewrite check_for_updates_eq. cbn zeta.
  destruct (list_truthy _); [|by intros [= <-]].
  apply notify_keeps_fired.
Qed.

Lemma fired_allocated w d :
  deferred_state w d ≠ NotCalled → d ∈ dom (deferreds w).
Proof.
  unfold deferred_state. intros Hd. apply elem_of_dom.
  by destruct (deferreds w !! d).
Qed.

Lemma step_keeps_fired es w w' d :
  step es w w' → deferred_state w d ≠ NotCalled →
  deferred_state w' d = deferred_state w d.
Proof.
  intros Hstep Hd. destruct Hstep as
    [u rms from lim tmo w|event extra_users w w' E|users rms w w' E
    |u room w|i delay l w w' Hi E].
  - destruct (get_events_for_cases es u rms from lim tmo w)
      as (w' & -> & Hcases). simpl.
    assert (H0 : deferred_state (with_new_deferred w) d = deferred_state w d).
    { apply with_new_deferred_state. by apply fired_allocated. }
    destruct Hcases as [(-> & w2 & Hchk & Ht)|(Htmo & Hchk)].
    + unfold _timeout_listener in Ht.
      rewrite (notify_keeps_fired _ _ _ _ _ _ d Ht);
        rewrite (check_for_updates_keeps_fired _ _ _ _ d Hchk);
        by rewrite H0.
    + rewrite (check_for_updates_keeps_fired _ _ _ _ d Hchk);
        rewrite deferred_state_register;
        change (deferred_state (callLater (tmo / 1000)
                  (make_listener es (new_deferred w) u rms from lim tmo)
                  (with_new_deferred w)) d)
          with (deferred_state (with_new_deferred w) d);
        by rewrite H0.
  - unfold on_new_room_event in E.
    destruct (sources_getitem (sources es) "room") as [source|]; [|done].
    cbn in E.
    destruct (for_each_wake_spec source
                (elements (room_event_listeners (room_id event)
                             extra_users w)) w)
      as (w1 & E1 & _ & _ & _ & Hkeep & _).
    rewrite E1 in E. injection E as <-. by apply Hkeep.
  - unfold on_new_user_event in E.
    destruct (sources_getitem (sources es) "presence") as [source|];
      [|done].
    cbn in E.
    destruct (for_each_wake_spec source
                (elements (user_event_listeners users rms w)) w)
      as (w1 & E1 & _ & _ & _ & Hkeep & _).
    rewrite E1 in E. injection E as <-. by apply Hkeep.
  - done.
  - unfold _timeout_listener in E.
    by rewrite (notify_keeps_fired _ _ _ _ _ _ d E).
Qed.

(** X7. What a Deferred holds once it has fired is final: along any
    sequence of notifier steps -- calls of [get_events_for], room and user
    events, joins, timers firing, in any order -- a Deferred that has been
    called keeps the result of that first call. *)
Theorem fired_deferred_keeps_its_result es w w' d result :
  rtc (step es) w w' →
  deferred_state w d = Called result →
  deferred_state w' d = Called result.
Proof.
  intros Hrun. induction Hrun as [w|w w1 w' Hstep _ IH]; [done|].
  intros Hd. apply IH.
  rewrite (step_keeps_fired es w w1 d Hstep); [done|]. by rewrite Hd.
Qed.

Lemma fired_deferred_keeps_its_result_witness :
  ∃ w1 w2,
    (get_events_for busy_sources "@bob" ["!r1"] (Some "t0") 10 0
                    sample_waiting).2 = w1 ∧
    deferred_state w1 2%positive = Called ([sample_event], ("t0", "t1")) ∧
    on_new_room_event busy_sources sample_event ["@bob"]
                      (_user_joined_room "@bob" "!r1" w1) = Ok w2 ∧
    deferred_state w2 2%positive = Called ([sample_event], ("t0", "t1")).
Proof.
  set (w1 := (get_events_for busy_sources "@bob" ["!r1"] (Some "t0") 10 0
                sample_waiting).2).
  assert (Hd1 : deferred_state w1 2%positive =
                Called ([sample_event], ("t0", "t1"))) by by_compute.
  destruct (dispatch_room_total busy_sources sample_event ["@bob"]
              (_user_joined_room "@bob" "!r1" w1)) as [w2 E2];
    [by_compute|].
  exists w1, w2. split; [reflexivity|]. split; [exact Hd1|].
  split; [exact E2|].
  apply (fired_deferred_keeps_its_result busy_sources w1 w2 2%positive
           ([sample_event], ("t0", "t1"))); [|exact Hd1].
  eapply rtc_l; [apply step_user_joined_room|].
  eapply rtc_l; [|apply rtc_refl].
  eapply step_on_new_room_event. exact E2.
Defined.

(** Keys of the two dicts. *)
Lemma notify_dom self events s e w w' :
  notify self events s e w = Ok w' →
  dom (rooms_to_listeners w') = dom (rooms_to_listeners w) ∧
  dom (user_to_listeners w') = dom (user_to_listeners w).
Proof.
  rewrite notify_eq. intros [= <-].
  by rewrite dom_rooms_purge, dom_users_purge, rooms_deliver,
    users_deliver.
Qed.

Lemma for_each_wake_dom source ls w w' :
  for_each ls (wake_listener source) w = Ok w' →
  dom (rooms_to_listeners w') = dom (rooms_to_listeners w) ∧
  dom (user_to_listeners w') = dom (user_to_listeners w).
Proof.
  revert w. induction ls as [|l ls IH]; intros w; cbn.
  - by intros [= <-].
  - destruct (wake_listener_total source l w) as [w1 E1]. rewrite E1. cbn.
    intros E. destruct (IH w1 E) as [-> ->].
    rewrite wake_listener_eq in E1. destruct (has_news source l).
    + by apply notify_dom in E1.
    + by injection E1 as <-.
Qed.

Lemma check_for_updates_dom es l w w' :
  _check_for_updates es l w = Ok w' →
  dom (rooms_to_listeners w') = dom (rooms_to_listeners w) ∧
  dom (user_to_listeners w') = dom (user_to_listeners w).
Proof.
  rewrite check_for_updates_eq. cbn zeta.
  destruct (list_truthy _); [|by intros [= <-]].
  apply notify_dom.
Qed.

Lemma dom_setdefault_ior {K : Type} `{Countable K}
    (d : gmap K (gset _NotificationListener)) (k : K)
    (new : gset _NotificationListener) :
  dom (setdefault_ior k new d) = {[k]} ∪ dom d.
Proof.
  unfold setdefault_ior, setdefault. rewrite dom_alter_L.
  destruct (d !! k) eqn:E.
  - apply elem_of_dom_2 in E. set_solver.
  - by rewrite dom_insert_L.
Qed.

Lemma dom_foldl_add (l : _NotificationListener) (rs : list room_id_t)
    (m : gmap room_id_t (gset _NotificationListener)) :
  dom m ⊆ dom (foldl (λ m room, setdefault_add room l m) m rs).
Proof.
  revert m. induction rs as [|r0 rs IH]; intros m; simpl; [done|].
  etrans; [|apply IH].
  change (setdefault_add r0 l m) with (setdefault_ior r0 {[l]} m).
  rewrite dom_setdefault_ior. set_solver.
Qed.

Lemma register_dom l w :
  dom (rooms_to_listeners w) ⊆ dom (rooms_to_listeners (_register_with_keys l w)) ∧
  dom (user_to_listeners w) ⊆ dom (user_to_listeners (_register_with_keys l w)).
Proof.
  unfold _register_with_keys. rewrite foldl_set_rooms. simpl. split.
  - apply dom_foldl_add.
  - change (setdefault_add (user l) l (user_to_listeners w))
      with (setdefault_ior (user l) {[l]} (user_to_listeners w)).
    rewrite dom_setdefault_ior. set_solver.
Qed.

Lemma step_dom es w w' :
  step es w w' →
  dom (rooms_to_listeners w) ⊆ dom (rooms_to_listeners w') ∧
  dom (user_to_listeners w) ⊆ dom (user_to_listeners w').
Proof.
  intros Hstep. destruct Hstep as
    [u rms from lim tmo w|event extra_users w w' E|users rms w w' E
    |u room w|i delay l w w' Hi E].
  - destruct (get_events_for_cases es u rms from lim tmo w)
      as (w' & -> & Hcases). simpl.
    destruct Hcases as [(-> & w2 & Hchk & Ht)|(Htmo & Hchk)].
    + unfold _timeout_listener in Ht.
      destruct (notify_dom _ _ _ _ _ _ Ht) as [-> ->].
      by destruct (check_for_updates_dom _ _ _ _ Hchk) as [-> ->].
    + destruct (check_for_updates_dom _ _ _ _ Hchk) as [-> ->].
      apply (register_dom _ (callLater _ _ (with_new_deferred w))).
  - unfold on_new_room_event in E.
    destruct (sources_getitem (sources es) "room") as [source|]; [|done].
    cbn in E. by destruct (for_each_wake_dom _ _ _ _ E) as [-> ->].
  - unfold on_new_user_event in E.
    destruct (sources_getitem (sources es) "presence") as [source|];
      [|done].
    cbn in E. by destruct (for_each_wake_dom _ _ _ _ E) as [-> ->].
  - unfold _user_joined_room. simpl. rewrite dom_setdefault_ior.
    split; [set_solver|done].
  - unfold _timeout_listener in E.
    by destruct (notify_dom _ _ _ _ _ _ E) as [-> ->].
Qed.

(** X8. No step of the notifier removes a key from either dict: a room or
    user that has an entry keeps it along any run, also when resolutions
    have emptied its set ([notify] discards the listener from the stored
    set and never deletes the entry). *)
Theorem index_entries_are_never_removed es w w' :
  rtc (step es) w w' →
  (∀ room, is_Some (rooms_to_listeners w !! room) →
           is_Some (rooms_to_listeners w' !! room)) ∧
  (∀ u, is_Some (user_to_listeners w !! u) →
        is_Some (user_to_listeners w' !! u)).
Proof.
  intros Hrun.
  assert (Hdom : dom (rooms_to_listeners w) ⊆ dom (rooms_to_listeners w') ∧
                 dom (user_to_listeners w) ⊆ dom (user_to_listeners w')).
  { induction Hrun as [w|w w1 w' Hstep _ IH]; [done|].
    destruct (step_dom es w w1 Hstep) as [Hr Hu].
    destruct IH as [Hr' Hu']. split; by etrans. }
  destruct Hdom as [Hr Hu]. split.
  - intros room Hin. apply elem_of_dom, Hr, elem_of_dom, Hin.
  - intros u Hin. apply elem_of_dom, Hu, elem_of_dom, Hin.
Qed.

Lemma index_entries_are_never_removed_witness :
  ∃ w',
    _timeout_listener sample_listener (pop_timer 0 sample_waiting) = Ok w' ∧
    is_Some (rooms_to_listeners w' !! "!r1") ∧
    dict_get (rooms_to_listeners w') "!r1" = ∅.
Proof.
  pose proof (notify_eq sample_listener [] "t0" "t0"
                (pop_timer 0 sample_waiting)) as E.
  eexists. split; [exact E|]. split.
  - apply (index_entries_are_never_removed quiet_sources sample_waiting).
    + eapply rtc_l; [|apply rtc_refl].
      eapply (step_timer _ 0 5 sample_listener); [by_compute|exact E].
    + by_compute.
  - by_compute.
Defined.

(** ** Joining twice, and chains of sources *)

Lemma setdefault_ior_idemp {K : Type} `{Countable K}
    (d : gmap K (gset _NotificationListener)) (k : K)
    (new : gset _NotificationListener) :
  setdefault_ior k new (setdefault_ior k new d) = setdefault_ior k new d.
Proof.
  destruct (setdefault_ior_is_Some d k new) as [s Hs].
  assert (Hnew : new ⊆ s).
  { intros y Hy.
    pose proof (proj2 (dict_get_setdefault_ior d k k new y)) as Hin.
    unfold dict_get in Hin. rewrite Hs in Hin. simpl in Hin.
    apply Hin. by right. }
  unfold setdefault_ior at 1. unfold setdefault. rewrite Hs.
  apply map_eq. intros k'. destruct (decide (k = k')) as [->|Hne].
  - rewrite lookup_alter_eq, Hs. simpl. f_equal. set_solver.
  - by rewrite lookup_alter_ne.
Qed.

(** X12. [_user_joined_room] is idempotent: delivering the same join signal
    twice leaves the notifier in the same world as delivering it once. *)
Theorem user_joined_room_twice_is_once u room w :
  _user_joined_room u room (_user_joined_room u room w) =
  _user_joined_room u room w.
Proof.
  unfold _user_joined_room. destruct w as [rm um ds ts].
  unfold set_rooms_to_listeners. simpl. f_equal.
  apply setdefault_ior_idemp.
Qed.

Lemma foldl_query_step_acc u lim srcs events from :
  foldl (query_step u lim) (events, from) srcs =
  (events ++ (query_sources u lim srcs from).1,
   (query_sources u lim srcs from).2).
Proof.
  unfold query_sources. rewrite !foldl_query_step_chain. simpl.
  reflexivity.
Qed.

(** X13. The catch-up loop composes along the list of sources: querying
    [srcs1 ++ srcs2] from a cursor is querying [srcs1] from it and then
    [srcs2] from the cursor [srcs1] ended with, the events of the first
    part before those of the second; with no source at all there are no
    events and the cursor is returned as it came. *)
Theorem query_sources_app u lim srcs1 srcs2 from :
  query_sources u lim [] from = ([], from) ∧
  query_sources u lim (srcs1 ++ srcs2) from =
    ((query_sources u lim srcs1 from).1 ++
     (query_sources u lim srcs2 (query_sources u lim srcs1 from).2).1,
     (query_sources u lim srcs2 (query_sources u lim srcs1 from).2).2).
Proof.
  split; [done|].
  unfold query_sources at 1. rewrite foldl_app.
  fold (query_sources u lim srcs1 from).
  destruct (query_sources u lim srcs1 from) as [events1 cursor1].
  apply foldl_query_step_acc.
Qed.

(** ** The starting cursor, and registration undone by resolution *)

(** X14. A long-poll without a usable [from_token] -- [None], or the empty
    string, which Python also takes for false -- starts from
    [get_current_token()]: with [timeout = 0] and nothing new after that
    token the caller gets the empty result with both cursors equal to the
    current token; a non-empty [from_token] is used as given. *)
Theorem poll_without_token_starts_from_current_token es u rms from lim w :
  token_truthy from = false →
  (query_sources u lim (sources_values es) (get_current_token es)).1 = [] →
  from_token (make_listener es (new_deferred w) u rms from lim 0)
    = get_current_token es ∧
  (∀ t, t ≠ "" →
     from_token (make_listener es (new_deferred w) u rms (Some t) lim 0)
       = t) ∧
  ∃ w', get_events_for es u rms from lim 0 w = (new_deferred w, w') ∧
    deferred_state w' (new_deferred w) =
      Called ([], (get_current_token es, get_current_token es)).
Proof.
  intros Hfrom Hnil.
  assert (Hft : from_token (make_listener es (new_deferred w) u rms from lim 0)
                = get_current_token es).
  { unfold make_listener. by rewrite Hfrom. }
  split; [done|]. split.
  { intros t Ht. unfold make_listener, token_truthy.
    destruct (String.eqb_spec t ""); [done|]. reflexivity. }
  destruct (get_events_for_cases es u rms from lim 0 w)
    as (w' & E & Hcases).
  exists w'. split; [done|].
  destruct Hcases as [(_ & w2 & Hchk & Ht)|[? _]]; [|done].
  rewrite check_for_updates_eq in Hchk. cbn zeta in Hchk.
  rewrite Hft in Hchk. cbn [user limit make_listener] in Hchk.
  rewrite Hnil in Hchk. cbn in Hchk. injection Hchk as <-.
  unfold _timeout_listener in Ht.
  rewrite (notify_deferred_state _ _ _ _ _ _ _ Ht).
  rewrite decide_True by done. rewrite Hft.
  change (deferred (make_listener es (new_deferred w) u rms from lim 0))
    with (new_deferred w).
  by rewrite deferred_state_with_new_deferred.
Qed.

Lemma poll_without_token_starts_from_current_token_witness :
  token_truthy (Some "") = false ∧
  ∃ w',
    get_events_for busy_sources "@bob" ["!r1"] (Some "") 10 0 sample_waiting
      = (2%positive, w') ∧
    deferred_state w' 2%positive = Called ([], ("t9", "t9")).
Proof.
  split; [reflexivity|].
  destruct (poll_without_token_starts_from_current_token busy_sources
              "@bob" ["!r1"] (Some "") 10 sample_waiting eq_refl eq_refl)
    as (_ & _ & w' & E & Hd).
  exists w'. split; [exact E|exact Hd].
Defined.

(** X15. Registration followed by resolution gives every set back the
    members it had: for a listener that is in no index, [notify] after
    [_register_with_keys] returns a world in which each room's set and each
    user's set has exactly the members it had before the registration (the
    entries the registration created stay, empty). *)
Theorem register_then_notify_restores_members l events s e w :
  absent_from_indices w l →
  ∃ w', notify l events s e (_register_with_keys l w) = Ok w' ∧
    (∀ room y, in_room w' room y ↔ in_room w room y) ∧
    (∀ u y, in_user w' u y ↔ in_user w u y) ∧
    (∀ room, room ∈ rooms l →
       is_Some (rooms_to_listeners w' !! room)) ∧
    is_Some (user_to_listeners w' !! user l).
Proof.
  intros [Hr Hu].
  destruct (notify l events s e (_register_with_keys l w)) as [w'|] eqn:E;
    [|by rewrite notify_eq in E].
  exists w'. split; [done|].
  destruct (notify_dom _ _ _ _ _ _ E) as [Hdr Hdu].
  split; [|split; [|split]].
  - intros room y. rewrite (notify_in_room _ _ _ _ _ _ _ _ E).
    rewrite in_room_register. split.
    + intros [[Hin|[Hroom ->]] Hn]; [done|]. destruct Hn. by split.
    + intros Hin. split; [by left|]. intros [_ ->]. by apply (Hr room).
  - intros u y. rewrite (notify_in_user _ _ _ _ _ _ _ _ E).
    rewrite in_user_register. split.
    + intros [[Hin|[Hroom ->]] Hn]; [done|]. destruct Hn. by split.
    + intros Hin. split; [by left|]. intros [_ ->]. by apply (Hu u).
  - intros room Hroom. apply elem_of_dom. rewrite Hdr. apply elem_of_dom.
    assert (Hadd : ∀ rs m, room ∈ rs →
              is_Some (foldl (λ m room, setdefault_add room l m) m rs
                         !! room)).
    { clear. intros rs m Hin. apply elem_of_dom.
      revert m. induction rs as [|r0 rs IH]; intros m.
      - by apply elem_of_nil in Hin.
      - simpl. apply elem_of_cons in Hin as [->|Hin]; [|by apply IH].
        apply (dom_foldl_add l rs). apply elem_of_dom.
        apply (setdefault_ior_is_Some m r0 {[l]}). }
    unfold _register_with_keys. rewrite foldl_set_rooms. simpl.
    by apply Hadd.
  - apply elem_of_dom. rewrite Hdu. apply elem_of_dom.
    unfold _register_with_keys. rewrite foldl_set_rooms. simpl.
    apply (setdefault_ior_is_Some _ (user l) {[l]}).
Qed.

Lemma register_then_notify_restores_members_witness :
  absent_from_indices Notifier_init sample_listener ∧
  ∃ w',
    notify sample_listener [] "t0" "t0"
      (_register_with_keys sample_listener Notifier_init) = Ok w' ∧
    is_Some (rooms_to_listeners w' !! "!r1") ∧
    ¬ in_room w' "!r1" sample_listener.
Proof.
  assert (Habs : absent_from_indices Notifier_init sample_listener).
  { split; intros k Hin; unfold in_room, in_user, dict_get in Hin;
      simpl in Hin; rewrite lookup_empty in Hin; simpl in Hin;
      by apply not_elem_of_empty in Hin. }
  split; [exact Habs|].
  destruct (register_then_notify_restores_members sample_listener []
              "t0" "t0" Notifier_init Habs) as (w' & E & Hr & _ & Hdr & _).
  exists w'. split; [exact E|]. split.
  - apply Hdr. apply elem_of_cons. by left.
  - rewrite Hr. apply Habs.
Defined.


(** * The code as the reactor runs it: calls suspended at a [yield] *)

(** ** One resumption *)

Lemma after_check_eq l w :
  after_check l w =
  Ok (if nat_truthy (timeout l) then w
      else purge l (deliver (deferred l)
                      ([], (from_token l, from_token l)) w)).
Proof.
  unfold after_check, _timeout_listener.
  destruct (nat_truthy (timeout l)); [done|]. apply notify_eq.
Qed.

Lemma finish_check_eq l events end_token w :
  ∃ w' w'',
    (if list_truthy events
     then notify l events (from_token l) end_token w
     else Ok w) = Ok w' ∧
    after_check l w' = Ok w'' ∧
    finish_check l events end_token w = (Done, w'').
Proof.
  unfold finish_check.
  destruct (if list_truthy events
            then notify l events (from_token l) end_token w
            else Ok w) as [w'|e] eqn:E.
  2: { destruct (list_truthy events); [by rewrite notify_eq in E|done]. }
  destruct (after_check l w') as [w''|e] eqn:E'.
  2: { by rewrite after_check_eq in E'. }
  by exists w', w''.
Qed.

(** What [notify] leaves of a listener. *)
Lemma notify_effect l events s e w w' :
  notify l events s e w = Ok w' →
  (unresolved w l →
   deferred_state w' (deferred l) = Called (events, (s, e))) ∧
  (¬ unresolved w l →
   deferred_state w' (deferred l) = deferred_state w (deferred l)) ∧
  ¬ in_user w' (user l) l ∧
  (∀ room, room ∈ rooms l → ¬ in_room w' room l).
Proof.
  intros E.
  pose proof (notify_deferred_state _ _ _ _ _ _ (deferred l) E) as Hd.
  rewrite decide_True in Hd by done.
  split; [|split; [|split]].
  - intros Hun. unfold unresolved in Hun. by rewrite Hd, Hun.
  - intros Hres. rewrite Hd. unfold unresolved in Hres.
    by destruct (deferred_state w (deferred l)).
  - rewrite (notify_in_user _ _ _ _ _ _ _ _ E). naive_solver.
  - intros room Hr. rewrite (notify_in_room _ _ _ _ _ _ _ _ E).
    naive_solver.
Qed.

(** The answer for the listener at the head of a dispatch. *)
Lemma resume_dispatch source l rest events end_token w :
  ∃ w',
    resume (in_dispatch source (l :: rest)) (Ok (events, end_token)) w =
      Some (dispatch_loop source rest w') ∧
    (events = [] → w' = w) ∧
    (events ≠ [] → notify l events (from_token l) end_token w = Ok w').
Proof.
  cbn [resume]. destruct events as [|ev events]; cbn [list_truthy].
  - exists w. by repeat split.
  - destruct (notify l (ev :: events) (from_token l) end_token w)
      as [w'|e] eqn:E; [|by rewrite notify_eq in E].
    exists w'. by repeat split.
Qed.


(** ** A waiting long-poll *)



(** ** A room event *)

(** C7, as the code has it.  [on_new_room_event event extra_users] takes
    its candidates from the notifier as it is when the call starts -- the
    set of the event's room united with the sets of [extra_users] -- and
    changes nothing before its first query.  The candidates are handled
    one after the other, whatever happens to the indices meanwhile: the
    room source is queried with the candidate's own user, [from_token] and
    [limit], and when the answer arrives the candidate is notified with
    (events, its [from_token], the cursor of the answer) if and only if the
    events are not empty.  A notified candidate that is still unresolved by
    then is resolved with exactly that payload; one that has been resolved
    meanwhile keeps its result; either way it leaves the sets of its user
    and of its rooms.  An empty answer changes nothing. *)
Theorem on_new_room_event_notifies_candidates_with_news
    es event extra_users w source :
  sources_getitem (sources es) "room" = Ok source →
  let candidates := room_event_listeners (room_id event) extra_users w in
  (∀ l, l ∈ candidates ↔
        in_room w (room_id event) l ∨
        ∃ u, u ∈ extra_users ∧ in_user w u l) ∧
  on_new_room_event_begin es event extra_users w =
    dispatch_loop source (elements candidates) w ∧
  (on_new_room_event_begin es event extra_users w).2 = w ∧
  (∀ l rest,
     pending_query (in_dispatch source (l :: rest)) =
       Some (source, user l, from_token l, limit l)) ∧
  (∀ l rest events new_cursor w',
     ∃ w'',
       resume (in_dispatch source (l :: rest)) (Ok (events, new_cursor)) w'
         = Some (match rest with
                 | [] => Done
                 | _ :: _ => Waiting (in_dispatch source rest)
                 end, w'') ∧
       (events = [] → w'' = w') ∧
       (events ≠ [] →
        notify l events (from_token l) new_cursor w' = Ok w'' ∧
        (unresolved w' l →
         deferred_state w'' (deferred l) =
           Called (events, (from_token l, new_cursor))) ∧
        (¬ unresolved w' l →
         deferred_state w'' (deferred l) = deferred_state w' (deferred l)) ∧
        ¬ in_user w'' (user l) l ∧
        (∀ room, room ∈ rooms l → ¬ in_room w'' room l))).
Proof.
  intros Hsrc candidates.
  split; [intros l; apply elem_of_room_event_listeners|].
  assert (Hbegin : on_new_room_event_begin es event extra_users w =
                   dispatch_loop source (elements candidates) w).
  { unfold on_new_room_event_begin. by rewrite Hsrc. }
  split; [done|]. split.
  { rewrite Hbegin. unfold dispatch_loop. by destruct (elements candidates). }
  split; [done|].
  intros l rest events new_cursor w'.
  destruct (resume_dispatch source l rest events new_cursor w')
    as (w'' & E & Hnil & Hne).
  exists w''. split.
  { rewrite E. unfold dispatch_loop. by destruct rest. }
  split; [done|].
  intros Hev. specialize (Hne Hev). split; [done|].
  by apply notify_effect.
Qed.

Lemma on_new_room_event_notifies_candidates_with_news_witness :
  sources_getitem (sources busy_sources) "room" = Ok busy_source ∧
  ∃ w'',
    resume (in_dispatch busy_source [sample_listener])
           (Ok ([sample_event], "t1")) sample_joined = Some (Done, w'') ∧
    deferred_state w'' (deferred sample_listener) =
      Called ([sample_event], ("t0", "t1")).
Proof.
  split; [reflexivity|].
  destruct (on_new_room_event_notifies_candidates_with_news busy_sources
              sample_event ["@alice"] sample_joined busy_source eq_refl)
    as (_ & _ & _ & _ & Hres).
  destruct (Hres sample_listener [] [sample_event] "t1" sample_joined)
    as (w'' & E & _ & Hne).
  exists w''. split; [exact E|].
  destruct Hne as (_ & Hd & _); [discriminate|].
  apply Hd. by_compute.
Defined.

(** C7, as stated, fails.  The listener of ["@alice"] waits on ["!r1"]; a
    room event for ["!r1"] starts and queries the room source for it; its
    deadline fires before the answer is there; the answer has an event.
    The listener was a candidate and its query result is not empty, yet it
    is not resolved with (events, from_token, new_cursor): its Deferred
    holds the timeout result. *)
Lemma candidate_with_news_resolved_by_deadline_counterexample :
  sample_listener ∈
    room_event_listeners (room_id sample_event) [] sample_waiting ∧
  (on_new_room_event_begin busy_sources sample_event [] sample_waiting).1 =
    Waiting (in_dispatch busy_source [sample_listener]) ∧
  busy_source (user sample_listener) (from_token sample_listener)
              (limit sample_listener) = ([sample_event], "t1") ∧
  timers sample_waiting !! 0 = Some (5, sample_listener) ∧
  ∃ w1 w2,
    _timeout_listener sample_listener (pop_timer 0 sample_waiting) = Ok w1 ∧
    resume (in_dispatch busy_source [sample_listener])
           (Ok ([sample_event], "t1")) w1 = Some (Done, w2) ∧
    deferred_state w2 (deferred sample_listener) =
      Called ([], ("t0", "t0")) ∧
    deferred_state w2 (deferred sample_listener) ≠
      Called ([sample_event], (from_token sample_listener, "t1")).
Proof.
  split; [by_compute|]. split; [by vm_compute|]. split; [reflexivity|].
  split; [by_compute|].
  pose proof (notify_eq sample_listener [] "t0" "t0"
                (pop_timer 0 sample_waiting)) as E1.
  eexists. 
  destruct (resume_dispatch busy_source sample_listener [] [sample_event]
              "t1"
              (purge sample_listener
                 (deliver (deferred sample_listener) ([], ("t0", "t0"))
                    (pop_timer 0 sample_waiting))))
    as (w2 & E2 & _ & Hne).
  exists w2. split; [exact E1|]. split; [exact E2|].
  assert (Hd1 : deferred_state
            (purge sample_listener
               (deliver (deferred sample_listener) ([], ("t0", "t0"))
                  (pop_timer 0 sample_waiting)))
            (deferred sample_listener) = Called ([], ("t0", "t0")))
    by by_compute.
  assert (Hd2 : deferred_state w2 (deferred sample_listener) =
                Called ([], ("t0", "t0"))).
  { destruct (notify_effect _ _ _ _ _ _ (Hne ltac:(discriminate)))
      as (_ & Hkeep & _).
    rewrite Hkeep; [exact Hd1|]. unfold unresolved. rewrite Hd1.
    discriminate. }
  split; [exact Hd2|]. rewrite Hd2. discriminate.
Qed.

(** ** The deadline of a listener that was merged into a room *)

(** C6.  The deadline of the waiting listener of ["@alice"] fires after
    the user joined ["!r2"].  The listener is unresolved; the timeout path
    resolves it with an empty event list and [start = end = "t0"], its
    [from_token], and takes it out of the sets of ["@alice"] and of
    ["!r1"]; it does not purge it from the indices: the listener is still
    in the set of ["!r2"]. *)
Theorem timeout_does_not_purge_joined_room :
  unresolved sample_joined sample_listener ∧
  in_room sample_joined "!r2" sample_listener ∧
  ∃ w,
    _timeout_listener sample_listener sample_joined = Ok w ∧
    deferred_state w (deferred sample_listener) =
      Called ([], (from_token sample_listener,
                   from_token sample_listener)) ∧
    ¬ in_user w "@alice" sample_listener ∧
    ¬ in_room w "!r1" sample_listener ∧
    in_room w "!r2" sample_listener ∧
    ¬ absent_from_indices w sample_listener.
Proof.
  assert (Hun : unresolved sample_joined sample_listener) by by_compute.
  split; [exact Hun|]. split; [by_compute|].
  pose proof (notify_eq sample_listener [] "t0" "t0" sample_joined) as E.
  eexists. split; [exact E|].
  destruct (notify_effect _ _ _ _ _ _ E) as (Hd & _ & Hu & Hr).
  split; [exact (Hd Hun)|]. split; [exact Hu|].
  split; [apply Hr; by_compute|].
  assert (Hin : in_room
            (purge sample_listener
               (deliver (deferred sample_listener) ([], ("t0", "t0"))
                  sample_joined)) "!r2" sample_listener) by by_compute.
  split; [exact Hin|].
  intros [Habs _]. exact (Habs "!r2" Hin).
Qed.

(** ** What every run with suspended calls maintains *)

Lemma coherent_init : coherent System_init.
Proof.
  assert (Hk : ∀ l, ¬ known Notifier_init l).
  { intros l Hl. apply (known_allocated _ consistent_init) in Hl.
    simpl in Hl. set_solver. }
  assert (Hr : ∀ l, ¬ referenced System_init l).
  { intros l [Hl|(s & Hs & _)]; [by apply (Hk l)|].
    simpl in Hs. by apply elem_of_nil in Hs. }
  split.
  - intros l Hl. by destruct (Hr l).
  - intros l l' Hl. by destruct (Hr l).
  - intros l u Hu. destruct (Hk l). right. left. by exists u.
  - intros l Hu. destruct (Hk l). right. left. by exists (user l).
  - intros l r _ Hin. destruct (Hk l). left. by exists r.
Qed.

(** Changing the suspended calls without adding references. *)
Lemma coherent_calls w calls calls' :
  coherent (mkSystem w calls) →
  (∀ s l, s ∈ calls' → held_by s l → referenced (mkSystem w calls) l) →
  coherent (mkSystem w calls').
Proof.
  intros Hc Hsub.
  assert (Hr : ∀ l, referenced (mkSystem w calls') l →
                    referenced (mkSystem w calls) l).
  { intros l [Hl|(s & Hs & Hh)]; [by left|]. by apply (Hsub s). }
  split.
  - intros l Hl. apply (referenced_allocated _ Hc), Hr, Hl.
  - intros l l' Hl Hl'. apply (referenced_deferred_inj _ Hc); by apply Hr.
  - apply (coherent_in_user_own _ Hc).
  - apply (own_user_undelivered _ Hc).
  - apply (own_room_undelivered _ Hc).
Qed.

Lemma elem_of_park st calls s :
  s ∈ park st calls → s ∈ calls ∨ st = Waiting s.
Proof.
  destruct st as [|s'|e]; simpl; [by left| |by left].
  intros [?|Hs]%elem_of_app; [by left|].
  right. apply list_elem_of_singleton in Hs. by subst.
Qed.

Lemma elem_of_delete_calls (calls : list Suspended) i s :
  s ∈ delete i calls → s ∈ calls.
Proof.
  intros Hs. apply list_elem_of_lookup in Hs as [j Hj].
  apply list_elem_of_lookup. destruct (decide (j < i)).
  - exists j. by rewrite list_lookup_delete_lt in Hj.
  - exists (S j). by rewrite list_lookup_delete_ge in Hj by lia.
Qed.

(** [notify] on a listener that is the only referenced holder of its
    Deferred. *)
Lemma coherent_notify self events s e w w' calls :
  coherent (mkSystem w calls) →
  (∀ l', referenced (mkSystem w calls) l' →
         deferred l' = deferred self → l' = self) →
  notify self events s e w = Ok w' →
  coherent (mkSystem w' calls).
Proof.
  intros Hc Hsole E.
  assert (Hr : ∀ l, referenced (mkSystem w' calls) l →
                    referenced (mkSystem w calls) l).
  { intros l [Hl|Hl]; [left; by eapply notify_known|by right]. }
  assert (Hother : ∀ y, referenced (mkSystem w calls) y → y ≠ self →
                        ¬ delivered w y → ¬ delivered w' y).
  { intros y Hy Hne Hnd [res Hres]. apply Hnd. exists res.
    rewrite (notify_deferred_state _ _ _ _ _ _ _ E) in Hres.
    rewrite decide_False in Hres; [done|].
    intros Hd. by apply Hne, Hsole. }
  split; simpl.
  - intros l Hl. eapply notify_dom_deferreds; [done|].
    apply (referenced_allocated _ Hc), Hr, Hl.
  - intros l l' Hl Hl'. apply (referenced_deferred_inj _ Hc); by apply Hr.
  - intros l u Hu. apply (coherent_in_user_own _ Hc). simpl.
    by apply (notify_in_user _ _ _ _ _ _ _ _ E) in Hu as [? _].
  - intros l Hu. apply (notify_in_user _ _ _ _ _ _ _ _ E) in Hu as [Hu Hne].
    apply Hother.
    + left. right. left. by exists (user l).
    + naive_solver.
    + by apply (own_user_undelivered _ Hc).
  - intros l r Hr' Hin.
    apply (notify_in_room _ _ _ _ _ _ _ _ E) in Hin as [Hin Hne].
    apply Hother.
    + left. left. by exists r.
    + naive_solver.
    + by apply (own_room_undelivered _ Hc l r).
Qed.

(** A failure passed to the Deferred of a call. *)
Lemma failed_get_events_world d e w st w' :
  failed_get_events d e w = (st, w') →
  rooms_to_listeners w' = rooms_to_listeners w ∧
  user_to_listeners w' = user_to_listeners w ∧
  timers w' = timers w ∧
  (∀ d', deferred_state w' d' =
         if decide (d' = d)
         then match deferred_state w d with
              | NotCalled => Failed e
              | state => state
              end
         else deferred_state w d') ∧
  st = (match deferred_state w d with
        | NotCalled => Done
        | _ => Errored AlreadyCalledError
        end).
Proof.
  unfold failed_get_events, Deferred_errback.
  destruct (deferred_state w d) eqn:Hd; intros [= <- <-]; simpl;
    (split; [done|]; split; [done|]; split; [done|]; split; [|done]).
  - intros d'. unfold deferred_state at 1. simpl. case_decide as Heq.
    + subst. by rewrite lookup_insert_eq.
    + by rewrite lookup_insert_ne.
  - intros d'. case_decide; by subst.
  - intros d'. case_decide; by subst.
Qed.

Lemma coherent_failed_get_events d e w st w' calls :
  coherent (mkSystem w calls) →
  failed_get_events d e w = (st, w') →
  coherent (mkSystem w' calls).
Proof.
  intros Hc E.
  destruct (failed_get_events_world _ _ _ _ _ E)
    as (Hr & Hu & Ht & Hds & _).
  assert (Hk : ∀ l, known w' l ↔ known w l).
  { intros l. unfold known, in_room, in_user. by rewrite Hr, Hu, Ht. }
  assert (Href : ∀ l, referenced (mkSystem w' calls) l →
                      referenced (mkSystem w calls) l).
  { intros l [Hl|Hl]; [left; by apply Hk|by right]. }
  assert (Hdel : ∀ l, delivered w' l → delivered w l).
  { intros l [res Hres]. rewrite Hds in Hres. case_decide as Heq.
    - rewrite <- Heq in Hres.
      destruct (deferred_state w (deferred l)) eqn:E'; try done.
      by exists result.
    - by exists res. }
  assert (Hdom : dom (deferreds w) ⊆ dom (deferreds w')).
  { unfold failed_get_events, Deferred_errback in E.
    destruct (deferred_state w d); injection E as <- <-; simpl;
      try done. rewrite dom_insert. set_solver. }
  split; simpl.
  - intros l Hl. apply Hdom, (referenced_allocated _ Hc), Href, Hl.
  - intros l l' Hl Hl'.
    apply (referenced_deferred_inj _ Hc); by apply Href.
  - intros l u Hin. apply (coherent_in_user_own _ Hc). simpl.
    unfold in_user in *. by rewrite <- Hu.
  - intros l Hin Hdl. apply (own_user_undelivered _ Hc l).
    + simpl. unfold in_user in *. by rewrite <- Hu.
    + by apply Hdel.
  - intros l r Hr' Hin Hdl. apply (own_room_undelivered _ Hc l r Hr').
    + simpl. unfold in_room in *. by rewrite <- Hr.
    + by apply Hdel.
Qed.

Lemma coherent_user_joined_room u room w calls :
  coherent (mkSystem w calls) →
  coherent (mkSystem (_user_joined_room u room w) calls).
Proof.
  intros Hc.
  destruct (user_joined_room_merges u room w)
    as (_ & _ & Hus & _ & Hroom & Hother & Hds & Hts).
  set (w' := _user_joined_room u room w) in *.
  assert (Hin : ∀ r l, in_room w' r l →
                       in_room w r l ∨ in_user w u l ∧ r = room).
  { intros r l Hl. destruct (decide (r = room)) as [->|Hne].
    - apply Hroom in Hl. naive_solver.
    - apply Hother in Hl; [|done]. by left. }
  assert (Hk : ∀ l, known w' l → known w l).
  { intros l [[r Hr]|[[u' Hu]|[dl Ht]]].
    - destruct (Hin r l Hr) as [?|[? _]]; [left; by eexists|].
      right. left. by eexists.
    - right. left. exists u'. unfold in_user in *. by rewrite Hus in Hu.
    - right. right. exists dl. by rewrite Hts in Ht. }
  assert (Href : ∀ l, referenced (mkSystem w' calls) l →
                      referenced (mkSystem w calls) l).
  { intros l [Hl|Hl]; [left; by apply Hk|by right]. }
  assert (Hdel : ∀ l, delivered w' l → delivered w l).
  { intros l [res Hres]. exists res. unfold deferred_state in *.
    by rewrite Hds in Hres. }
  split; cbn [notifier].
  - intros l Hl. rewrite Hds. apply (referenced_allocated _ Hc), Href, Hl.
  - intros l l' Hl Hl'.
    apply (referenced_deferred_inj _ Hc); by apply Href.
  - intros l u' Hu. apply (coherent_in_user_own _ Hc). cbn [notifier].
    unfold in_user in *. by rewrite Hus in Hu.
  - intros l Hu Hdl. apply (own_user_undelivered _ Hc l); [|by apply Hdel].
    cbn [notifier]. unfold in_user in *. by rewrite Hus in Hu.
  - intros l r Hr Hl Hdl. apply Hdel in Hdl.
    destruct (Hin r l Hl) as [?|[Hu _]].
    + by apply (own_room_undelivered _ Hc l r).
    + apply (own_user_undelivered _ Hc l); [|done]. simpl.
      by rewrite <- (coherent_in_user_own _ Hc l u Hu).
Qed.

Lemma coherent_pop_timer i w calls :
  coherent (mkSystem w calls) → coherent (mkSystem (pop_timer i w) calls).
Proof.
  intros Hc.
  assert (Href : ∀ l, referenced (mkSystem (pop_timer i w) calls) l →
                      referenced (mkSystem w calls) l).
  { intros l [Hl|Hl]; [left; by eapply pop_timer_known|by right]. }
  split; simpl.
  - intros l Hl. apply (referenced_allocated _ Hc), Href, Hl.
  - intros l l' Hl Hl'.
    apply (referenced_deferred_inj _ Hc); by apply Href.
  - apply (coherent_in_user_own _ Hc).
  - apply (own_user_undelivered _ Hc).
  - apply (own_room_undelivered _ Hc).
Qed.

Lemma coherent_with_new_deferred w calls :
  coherent (mkSystem w calls) →
  coherent (mkSystem (with_new_deferred w) calls).
Proof.
  intros Hc.
  assert (Hdel : ∀ l, referenced (mkSystem w calls) l →
                      delivered (with_new_deferred w) l → delivered w l).
  { intros l Hl [res Hres]. exists res.
    rewrite with_new_deferred_state in Hres; [done|].
    by apply (referenced_allocated _ Hc). }
  split; simpl.
  - intros l Hl. rewrite dom_insert.
    apply elem_of_union_r, (referenced_allocated _ Hc), Hl.
  - apply (referenced_deferred_inj _ Hc).
  - apply (coherent_in_user_own _ Hc).
  - intros l Hu Hdl. apply (own_user_undelivered _ Hc l Hu), Hdel; [|done].
    left. right. left. by exists (user l).
  - intros l r Hr Hin Hdl.
    apply (own_room_undelivered _ Hc l r Hr Hin), Hdel; [|done].
    left. left. by exists r.
Qed.

(** A listener around a Deferred nobody else holds, registered or held by
    a new call. *)
Lemma coherent_new_listener w calls l w1 calls1 :
  coherent (mkSystem w calls) →
  deferred l ∈ dom (deferreds w) →
  (∀ l', referenced (mkSystem w calls) l' → deferred l' ≠ deferred l) →
  ¬ delivered w l →
  deferreds w1 = deferreds w →
  (∀ room y, in_room w1 room y →
             in_room w room y ∨ (room ∈ rooms l ∧ y = l)) →
  (∀ u y, in_user w1 u y → in_user w u y ∨ (u = user l ∧ y = l)) →
  (∀ dl y, (dl, y) ∈ timers w1 → (dl, y) ∈ timers w ∨ y = l) →
  (∀ s y, s ∈ calls1 → held_by s y →
          (∃ s', s' ∈ calls ∧ held_by s' y) ∨ y = l) →
  coherent (mkSystem w1 calls1).
Proof.
  intros Hc Hd Hfresh Hnd Hds Hroom Huser Htim Hcalls.
  assert (Href : ∀ y, referenced (mkSystem w1 calls1) y →
                      referenced (mkSystem w calls) y ∨ y = l).
  { intros y [[[r Hr]|[[u Hu]|[dl Ht]]]|(s & Hs & Hh)].
    - destruct (Hroom r y Hr) as [?|[_ ->]]; [|by right].
      left. left. left. by exists r.
    - destruct (Huser u y Hu) as [?|[_ ->]]; [|by right].
      left. left. right. left. by exists u.
    - destruct (Htim dl y Ht) as [?|?]; [|by right].
      left. left. right. right. by exists dl.
    - destruct (Hcalls s y Hs Hh) as [(s' & ? & ?)|?]; [|by right].
      left. right. by exists s'. }
  assert (Hdel : ∀ y, delivered w1 y → delivered w y).
  { intros y [res Hres]. exists res. unfold deferred_state in *.
    by rewrite Hds in Hres. }
  split; simpl.
  - intros y Hy. rewrite Hds. destruct (Href y Hy) as [Hy'| ->]; [|done].
    by apply (referenced_allocated _ Hc).
  - intros y y' Hy Hy' Hdd.
    destruct (Href y Hy) as [Hy1| ->], (Href y' Hy') as [Hy1'| ->];
      try done.
    + by apply (referenced_deferred_inj _ Hc).
    + by destruct (Hfresh y Hy1).
    + by destruct (Hfresh y' Hy1').
  - intros y u Hu. destruct (Huser u y Hu) as [?|[-> ->]]; [|done].
    by apply (coherent_in_user_own _ Hc).
  - intros y Hu Hdl. apply Hdel in Hdl.
    destruct (Huser _ y Hu) as [?|[_ ->]]; [|done].
    by apply (own_user_undelivered _ Hc y).
  - intros y r Hr Hin Hdl. apply Hdel in Hdl.
    destruct (Hroom r y Hin) as [?|[_ ->]]; [|done].
    by apply (own_room_undelivered _ Hc y r).
Qed.

(** The end of a check, for a listener that is the only referenced holder
    of its Deferred. *)
Lemma coherent_finish_check l events end_token w st w' calls :
  coherent (mkSystem w calls) →
  (∀ l', referenced (mkSystem w calls) l' →
         deferred l' = deferred l → l' = l) →
  finish_check l events end_token w = (st, w') →
  coherent (mkSystem w' calls).
Proof.
  intros Hc Hsole E.
  destruct (finish_check_eq l events end_token w)
    as (v & v' & E1 & E2 & E3).
  rewrite E3 in E. injection E as <- <-.
  assert (Hc1 : coherent (mkSystem v calls) ∧
                (∀ l', referenced (mkSystem v calls) l' →
                       deferred l' = deferred l → l' = l)).
  { destruct (list_truthy events).
    - split; [by eapply coherent_notify|].
      intros l' [Hl'|Hl']; apply Hsole; [left; by eapply notify_known|].
      by right.
    - by injection E1 as <-. }
  destruct Hc1 as [Hc1 Hsole1].
  unfold after_check in E2. destruct (negb (nat_truthy (timeout l))).
  - by eapply coherent_notify.
  - by injection E2 as <-.
Qed.

Lemma coherent_sole_holder sys l :
  coherent sys → referenced sys l →
  ∀ l', referenced sys l' → deferred l' = deferred l → l' = l.
Proof. intros Hc Hl l' Hl' Hd. by apply (referenced_deferred_inj _ Hc). Qed.

Lemma coherent_get_events_for_begin es u rms from lim tmo sys :
  coherent sys →
  coherent
    (mkSystem (get_events_for_begin es u rms from lim tmo (notifier sys)).2.2
              (park (get_events_for_begin es u rms from lim tmo
                       (notifier sys)).2.1
                    (suspended sys))).
Proof.
  destruct sys as [w calls]. intros Hc. cbn [notifier suspended].
  unfold get_events_for_begin, _get_events_begin. cbn [fst snd].
  set (d := new_deferred w).
  set (l := make_listener es d u rms from lim tmo).
  set (w0 := with_new_deferred w).
  pose proof (coherent_with_new_deferred w calls Hc) as Hc0. fold w0 in Hc0.
  assert (Hd : deferred l ∈ dom (deferreds w0)).
  { unfold w0, with_new_deferred. simpl. rewrite dom_insert. set_solver. }
  assert (Hfresh : ∀ l', referenced (mkSystem w0 calls) l' →
                         deferred l' ≠ deferred l).
  { intros l' Hl' Heq. apply (new_deferred_fresh w).
    change (new_deferred w) with (deferred l). rewrite <- Heq.
    by apply (referenced_allocated _ Hc l'). }
  assert (Hnd : ¬ delivered w0 l).
  { intros [res Hres]. change (deferred l) with (new_deferred w) in Hres.
    unfold w0 in Hres. by rewrite deferred_state_with_new_deferred in Hres. }
  set (w1 := if nat_truthy tmo
             then _register_with_keys l (callLater (tmo / 1000) l w0)
             else w0).
  assert (Hw1 :
    deferreds w1 = deferreds w0 ∧
    (∀ room y, in_room w1 room y →
               in_room w0 room y ∨ (room ∈ rooms l ∧ y = l)) ∧
    (∀ u' y, in_user w1 u' y → in_user w0 u' y ∨ (u' = user l ∧ y = l)) ∧
    (∀ dl y, (dl, y) ∈ timers w1 → (dl, y) ∈ timers w0 ∨ y = l)).
  { unfold w1. destruct (nat_truthy tmo).
    - split; [by rewrite deferreds_register|]. split; [|split].
      + intros room y Hin. by apply in_room_register in Hin.
      + intros u' y Hin. by apply in_user_register in Hin.
      + intros dl y Hin. rewrite timers_register in Hin. simpl in Hin.
        apply elem_of_app in Hin as [?|Hin]; [by left|].
        right. apply list_elem_of_singleton in Hin. by injection Hin.
    - split; [done|]. split; [|split]; intros; by left. }
  destruct Hw1 as (Hds & Hroom & Huser & Htim).
  unfold check_loop. destruct (sources_values es) as [|source srcs].
  - assert (Hc1 : coherent (mkSystem w1 calls)).
    { eapply (coherent_new_listener w0 calls l); try done.
      intros s y Hs Hh. left. by exists s. }
    destruct (finish_check l [] (from_token l) w1) as [st w'] eqn:E.
    cbn [fst snd].
    assert (Hc' : coherent (mkSystem w' calls)).
    { eapply coherent_finish_check; [exact Hc1| |exact E].
      intros l' Hl' Heq.
      assert (Hor : referenced (mkSystem w0 calls) l' ∨ l' = l).
      { destruct Hl' as [[[r Hr]|[[u' Hu]|[dl Ht]]]|Hl'].
        - destruct (Hroom r l' Hr) as [?|[_ ?]]; [|by right].
          left. left. left. by exists r.
        - destruct (Huser u' l' Hu) as [?|[_ ?]]; [|by right].
          left. left. right. left. by exists u'.
        - destruct (Htim dl l' Ht) as [?|?]; [|by right].
          left. left. right. right. by exists dl.
        - left. by right. }
      destruct Hor as [Hl0|?]; [|done]. by destruct (Hfresh l' Hl0). }
    destruct (finish_check_eq l [] (from_token l) w1)
      as (v & v' & _ & _ & E3).
    rewrite E3 in E. injection E as <- <-. exact Hc'.
  - cbn [fst snd park].
    eapply (coherent_new_listener w0 calls l); try done.
    intros s y Hs Hh. apply elem_of_app in Hs as [Hs|Hs].
    + left. by exists s.
    + right. apply list_elem_of_singleton in Hs. subst s. exact Hh.
Qed.

Lemma coherent_dispatch_loop source ls w calls :
  coherent (mkSystem w calls) →
  (∀ l, l ∈ ls → known w l) →
  coherent (mkSystem (dispatch_loop source ls w).2
                     (park (dispatch_loop source ls w).1 calls)).
Proof.
  intros Hc Hls. destruct ls as [|l ls]; [done|]. cbn.
  apply (coherent_calls w calls); [done|].
  intros s y Hs Hh. apply elem_of_app in Hs as [Hs|Hs].
  - right. by exists s.
  - apply list_elem_of_singleton in Hs. subst s. left. by apply Hls.
Qed.

Lemma coherent_on_new_room_event_begin es event extra_users sys :
  coherent sys →
  coherent
    (mkSystem (on_new_room_event_begin es event extra_users
                 (notifier sys)).2
              (park (on_new_room_event_begin es event extra_users
                       (notifier sys)).1
                    (suspended sys))).
Proof.
  destruct sys as [w calls]. intros Hc. cbn [notifier suspended].
  unfold on_new_room_event_begin.
  destruct (sources_getitem (sources es) "room") as [source|e]; [|done].
  apply coherent_dispatch_loop; [done|].
  intros l Hl. apply elem_of_elements, elem_of_room_event_listeners in Hl.
  destruct Hl as [Hl|(u & _ & Hl)]; [left; by eexists|].
  right. left. by eexists.
Qed.

Lemma coherent_on_new_user_event_begin es users rms sys :
  coherent sys →
  coherent
    (mkSystem (on_new_user_event_begin es users rms (notifier sys)).2
              (park (on_new_user_event_begin es users rms
                       (notifier sys)).1
                    (suspended sys))).
Proof.
  destruct sys as [w calls]. intros Hc. cbn [notifier suspended].
  unfold on_new_user_event_begin.
  destruct (sources_getitem (sources es) "presence") as [source|e];
    [|done].
  apply coherent_dispatch_loop; [done|].
  intros l Hl. apply elem_of_elements, elem_of_user_event_listeners in Hl.
  destruct Hl as [(u & _ & Hl)|(r & _ & Hl)].
  - right. left. by eexists.
  - left. by eexists.
Qed.

Lemma coherent_resume i s answer st w' sys :
  coherent sys →
  suspended sys !! i = Some s →
  resume s answer (notifier sys) = Some (st, w') →
  coherent (mkSystem w' (park st (delete i (suspended sys)))).
Proof.
  destruct sys as [w calls]. cbn [notifier suspended]. intros Hc Hi E.
  assert (Hs : s ∈ calls) by (apply list_elem_of_lookup; by exists i).
  assert (Hheld : ∀ l, held_by s l → referenced (mkSystem w calls) l).
  { intros l Hl. right. by exists s. }
  assert (Hshrink : ∀ v, coherent (mkSystem v calls) →
                         coherent (mkSystem v (delete i calls))).
  { intros v Hv. apply (coherent_calls v calls); [done|].
    intros s' y Hs' Hh. right. exists s'. split; [|done].
    by apply elem_of_delete_calls in Hs'. }
  destruct s as [l waiting events cursor|source waiting].
  - destruct waiting as [|src rest]; [by destruct answer as [[]|]|].
    assert (Hl : referenced (mkSystem w calls) l) by by apply Hheld.
    destruct answer as [[stuff new_token]|e]; cbn [resume] in E.
    + injection E as E. unfold check_loop in E.
      destruct rest as [|src' rest].
      * assert (Hc' : coherent (mkSystem w' calls)).
        { eapply coherent_finish_check; [exact Hc| |exact E].
          by apply coherent_sole_holder. }
        destruct (finish_check_eq l (events ++ stuff) new_token w)
          as (v & v' & _ & _ & E3).
        rewrite E3 in E. injection E as <- <-. by apply Hshrink.
      * injection E as <- <-. cbn [park].
        apply (coherent_calls w calls); [done|].
        intros s' y Hs' Hh. apply elem_of_app in Hs' as [Hs'|Hs'].
        -- right. exists s'. split; [|done].
           by apply elem_of_delete_calls in Hs'.
        -- apply list_elem_of_singleton in Hs'. subst s'.
           simpl in Hh. by subst y.
    + injection E as E.
      pose proof (coherent_failed_get_events _ _ _ _ _ _ Hc E) as Hc'.
      destruct (failed_get_events_world _ _ _ _ _ E) as (_ & _ & _ & _ & ->).
      destruct (deferred_state w (deferred l)); by apply Hshrink.
  - destruct waiting as [|l rest]; [by destruct answer as [[]|]|].
    assert (Hl : referenced (mkSystem w calls) l).
    { apply Hheld. simpl. by left. }
    destruct answer as [[evs end_token]|e].
    + destruct (resume_dispatch source l rest evs end_token w)
        as (v & E' & Hnil & Hne).
      rewrite E' in E. injection E as E.
      assert (Hcv : coherent (mkSystem v calls)).
      { destruct evs as [|ev evs]; [by rewrite Hnil|].
        eapply coherent_notify; [exact Hc| |by apply Hne].
        by apply coherent_sole_holder. }
      destruct rest as [|l' rest]; cbn in E; injection E as <- <-.
      * by apply Hshrink.
      * cbn [park]. apply (coherent_calls v calls); [done|].
        intros s' y Hs' Hh. apply elem_of_app in Hs' as [Hs'|Hs'].
        -- right. exists s'. split; [|done].
           by apply elem_of_delete_calls in Hs'.
        -- apply list_elem_of_singleton in Hs'. subst s'.
           right. exists (in_dispatch source (l :: l' :: rest)).
           split; [done|]. simpl. by right.
    + cbn [resume] in E. injection E as <- <-. by apply Hshrink.
Qed.

(** Every system of a run is coherent. *)
Theorem async_reachable_coherent es sys :
  async_reachable es sys → coherent sys.
Proof.
  induction 1 as [|sys sys' _ IH Hstep]; [apply coherent_init|].
  destruct Hstep.
  - by apply coherent_get_events_for_begin.
  - by apply coherent_on_new_room_event_begin.
  - by apply coherent_on_new_user_event_begin.
  - destruct sys. by apply coherent_user_joined_room.
  - destruct sys as [w calls]. cbn [notifier suspended] in *.
    eapply coherent_notify; [by apply (coherent_pop_timer i)| |done].
    intros l' Hl' Hd. apply (referenced_deferred_inj _ IH); [| |done].
    + destruct Hl' as [Hl'|Hl']; [left; by eapply pop_timer_known|by right].
    + left. right. right. exists delay. apply list_elem_of_lookup.
      by exists i.
  - by eapply coherent_resume.
Qed.

(** ** Uninterrupted runs are runs of the reactor *)

Lemma finish_check_uninterrupted l events end_token w w2 w3 :
  (if list_truthy events
   then notify l events (from_token l) end_token w
   else Ok w) = Ok w2 →
  (if negb (nat_truthy (timeout l)) then _timeout_listener l w2
   else Ok w2) = Ok w3 →
  finish_check l events end_token w = (Done, w3).
Proof.
  intros E2 E3. unfold finish_check, after_check. by rewrite E2, E3.
Qed.

(** A check whose sources answer at once, one after the other. *)
Lemma check_loop_run es l srcs events cursor w :
  rtc (async_step es)
    (mkSystem (check_loop l srcs events cursor w).2
              (park (check_loop l srcs events cursor w).1 []))
    (mkSystem
       (finish_check l
          (foldl (query_step (user l) (limit l)) (events, cursor) srcs).1
          (foldl (query_step (user l) (limit l)) (events, cursor) srcs).2
          w).2
       []).
Proof.
  revert events cursor. induction srcs as [|src srcs IH];
    intros events cursor.
  - cbn [foldl fst snd check_loop].
    destruct (finish_check_eq l events cursor w) as (v & v' & _ & _ & ->).
    apply rtc_refl.
  - cbn [check_loop fst snd park app foldl]. unfold query_step at 2 4.
    destruct (src (user l) cursor (limit l)) as [stuff new_token] eqn:Es.
    eapply rtc_l; [|apply (IH (events ++ stuff) new_token)].
    apply (async_resume es 0 (in_check l (src :: srcs) events cursor)
             (Ok (stuff, new_token))
             (check_loop l srcs (events ++ stuff) new_token w).1
             (check_loop l srcs (events ++ stuff) new_token w).2
             (mkSystem w [in_check l (src :: srcs) events cursor]));
      [done|].
    cbn [resume notifier]. by destruct (check_loop _ _ _ _ _).
Qed.

Lemma get_events_for_run es u rms from lim tmo w :
  rtc (async_step es) (mkSystem w [])
      (mkSystem (get_events_for es u rms from lim tmo w).2 []).
Proof.
  eapply rtc_l; [apply (async_get_events_for es u rms from lim tmo)|].
  cbn [notifier suspended].
  unfold get_events_for_begin, _get_events_begin. cbn [fst snd].
  set (d := new_deferred w).
  set (l := make_listener es d u rms from lim tmo).
  set (w1 := if nat_truthy tmo
             then _register_with_keys l
                    (callLater (tmo / 1000) l (with_new_deferred w))
             else with_new_deferred w).
  assert (Hend : (get_events_for es u rms from lim tmo w).2 =
    (finish_check l
       (foldl (query_step (user l) (limit l)) ([], from_token l)
              (sources_values es)).1
       (foldl (query_step (user l) (limit l)) ([], from_token l)
              (sources_values es)).2 w1).2).
  { destruct (_get_events_trace_total es d u rms from lim tmo
                (with_new_deferred w)) as (v1 & v2 & v3 & Htr).
    rewrite (get_events_for_eq _ _ _ _ _ _ _ _ Htr). cbn [snd List.last].
    unfold _get_events_trace in Htr. fold l w1 in Htr.
    rewrite check_for_updates_eq in Htr. cbn zeta in Htr.
    unfold query_sources in Htr.
    destruct (if list_truthy _ then _ else _) as [w2|] eqn:E2 in Htr;
      [|done].
    cbn in Htr.
    destruct (if negb (nat_truthy tmo) then _ else _) as [w3|] eqn:E3
      in Htr; [|done].
    cbn in Htr. injection Htr as _ _ <-.
    by rewrite (finish_check_uninterrupted _ _ _ _ _ _ E2 E3). }
  rewrite Hend. apply check_loop_run.
Qed.

(** A dispatch whose source answers at once for every candidate. *)
Lemma dispatch_loop_run es source ls w w' :
  for_each ls (wake_listener source) w = Ok w' →
  rtc (async_step es)
    (mkSystem (dispatch_loop source ls w).2
              (park (dispatch_loop source ls w).1 []))
    (mkSystem w' []).
Proof.
  revert w. induction ls as [|l ls IH]; intros w.
  - cbn. intros [= <-]. apply rtc_refl.
  - cbn [for_each dispatch_loop fst snd park app].
    destruct (wake_listener source l w) as [w1|] eqn:E1; [|done].
    cbn. intros E. eapply rtc_l; [|apply (IH w1 E)].
    unfold wake_listener in E1.
    destruct (source (user l) (from_token l) (limit l))
      as [events end_token] eqn:Es.
    apply (async_resume es 0 (in_dispatch source (l :: ls))
             (Ok (events, end_token))
             (dispatch_loop source ls w1).1 (dispatch_loop source ls w1).2
             (mkSystem w [in_dispatch source (l :: ls)])); [done|].
    cbn [resume notifier]. rewrite E1. by destruct (dispatch_loop _ _ _).
Qed.

Lemma step_run es w w' :
  step es w w' → rtc (async_step es) (mkSystem w []) (mkSystem w' []).
Proof.
  intros Hstep. destruct Hstep as
    [u rms from lim tmo w|event extra_users w w' E|users rms w w' E
    |u room w|i delay l w w' Hi E].
  - apply get_events_for_run.
  - eapply rtc_l; [apply (async_on_new_room_event es event extra_users)|].
    cbn [notifier suspended]. unfold on_new_room_event in E.
    unfold on_new_room_event_begin.
    destruct (sources_getitem (sources es) "room") as [source|]; [|done].
    by apply dispatch_loop_run.
  - eapply rtc_l; [apply (async_on_new_user_event es users rms)|].
    cbn [notifier suspended]. unfold on_new_user_event in E.
    unfold on_new_user_event_begin.
    destruct (sources_getitem (sources es) "presence") as [source|];
      [|done].
    by apply dispatch_loop_run.
  - apply rtc_once. apply (async_user_joined_room es u room (mkSystem w [])).
  - apply rtc_once.
    by apply (async_timer es i delay l (mkSystem w []) w').
Qed.

Lemma async_reachable_rtc es sys sys' :
  async_reachable es sys → rtc (async_step es) sys sys' →
  async_reachable es sys'.
Proof.
  intros Hr Hrun. induction Hrun as [|sys sys1 sys' Hstep _ IH]; [done|].
  apply IH. by eapply async_reachable_step.
Qed.

Lemma reachable_async_reachable es w :
  reachable es w → async_reachable es (mkSystem w []).
Proof.
  induction 1 as [|w w' _ IH Hstep]; [apply async_reachable_init|].
  eapply async_reachable_rtc; [exact IH|]. by apply step_run.
Qed.

(** ** Properties of runs with suspended calls *)

(** X1. [on_new_user_event users rooms] takes its candidates from the
    notifier as it is when the call starts -- the sets of [users] united
    with the sets of [rooms] -- changes nothing before its first query and
    queries the presence source for the first candidate (with no
    candidate it is over at once).  When the answer for a candidate
    arrives, in whatever world the notifier is by then, the candidate is
    notified with (events, its [from_token], the cursor of the answer) if
    and only if the events are not empty: if still unresolved it is
    resolved with exactly that, and it leaves the sets of its user and
    rooms; an empty answer changes nothing; the call goes on with the rest
    of its snapshot. *)
Theorem on_new_user_event_notifies_candidates_with_news
    es users rms w source :
  sources_getitem (sources es) "presence" = Ok source →
  let candidates := user_event_listeners users rms w in
  (∀ l, l ∈ candidates ↔
        (∃ u, u ∈ users ∧ in_user w u l) ∨
        (∃ room, room ∈ rms ∧ in_room w room l)) ∧
  on_new_user_event_begin es users rms w =
    (match elements candidates with
     | [] => Done
     | _ :: _ => Waiting (in_dispatch source (elements candidates))
     end, w) ∧
  (∀ l rest,
     pending_query (in_dispatch source (l :: rest)) =
       Some (source, user l, from_token l, limit l)) ∧
  (∀ l rest events new_cursor w',
     ∃ w'',
       resume (in_dispatch source (l :: rest)) (Ok (events, new_cursor)) w'
         = Some (match rest with
                 | [] => Done
                 | _ :: _ => Waiting (in_dispatch source rest)
                 end, w'') ∧
       (events = [] → w'' = w') ∧
       (events ≠ [] →
        notify l events (from_token l) new_cursor w' = Ok w'' ∧
        (unresolved w' l →
         deferred_state w'' (deferred l) =
           Called (events, (from_token l, new_cursor))) ∧
        ¬ in_user w'' (user l) l ∧
        (∀ room, room ∈ rooms l → ¬ in_room w'' room l))).
Proof.
  intros Hsrc candidates.
  split; [intros l; apply elem_of_user_event_listeners|].
  split.
  { unfold on_new_user_event_begin. rewrite Hsrc. fold candidates.
    unfold dispatch_loop. by destruct (elements candidates). }
  split; [done|].
  intros l rest events new_cursor w'.
  destruct (resume_dispatch source l rest events new_cursor w')
    as (w'' & E & Hnil & Hne).
  exists w''. split.
  { rewrite E. unfold dispatch_loop. by destruct rest. }
  split; [done|].
  intros Hev. specialize (Hne Hev). split; [done|].
  destruct (notify_effect _ _ _ _ _ _ Hne) as (Hd & _ & Hu & Hr).
  by split.
Qed.

Lemma on_new_user_event_notifies_candidates_with_news_witness :
  sources_getitem (sources presence_sources) "presence" = Ok busy_source ∧
  on_new_user_event_begin presence_sources ["@alice"] [] sample_joined =
    (Waiting (in_dispatch busy_source [sample_listener]), sample_joined).
Proof.
  split; [reflexivity|].
  destruct (on_new_user_event_notifies_candidates_with_news
              presence_sources ["@alice"] [] sample_joined busy_source
              eq_refl) as (_ & E & _).
  rewrite E. by vm_compute.
Defined.

(** X4. A source query that fails during the catch-up check.  The failure
    is raised inside [_get_events] and reaches the caller's Deferred
    through its errback: an unresolved Deferred fails with that error, one
    that has fired keeps its result and [AlreadyCalledError] is raised to
    the reactor.  No further source is queried.  Neither index nor the
    timer queue is touched, so a listener that was registered stays
    registered; and when its deadline fires later, [notify] finds the
    Deferred fired, leaves it failed, and takes the listener out of the
    sets of its user and rooms. *)
Theorem failed_check_fails_the_deferred l source rest events cursor e w :
  ∃ st w',
    resume (in_check l (source :: rest) events cursor) (Raise e) w
      = Some (st, w') ∧
    rooms_to_listeners w' = rooms_to_listeners w ∧
    user_to_listeners w' = user_to_listeners w ∧
    timers w' = timers w ∧
    (∀ d, d ≠ deferred l → deferred_state w' d = deferred_state w d) ∧
    (unresolved w l →
     st = Done ∧ deferred_state w' (deferred l) = Failed e) ∧
    (¬ unresolved w l →
     st = Errored AlreadyCalledError ∧ w' = w) ∧
    (∀ v, deferred_state v (deferred l) = Failed e →
       ∃ v', _timeout_listener l v = Ok v' ∧
         deferred_state v' (deferred l) = Failed e ∧
         ¬ in_user v' (user l) l ∧
         (∀ room, room ∈ rooms l → ¬ in_room v' room l) ∧
         (in_user v (user l) l → v' ≠ v)).
Proof.
  cbn [resume].
  destruct (failed_get_events (deferred l) e w) as [st w'] eqn:E.
  exists st, w'. split; [done|].
  destruct (failed_get_events_world _ _ _ _ _ E)
    as (Hr & Hu & Ht & Hds & Hst).
  split; [done|]. split; [done|]. split; [done|].
  split.
  { intros d Hd. rewrite Hds. by rewrite decide_False. }
  split.
  { intros Hun. unfold unresolved in Hun. rewrite Hds, decide_True by done.
    by rewrite Hst, Hun. }
  split.
  { intros Hres. unfold unresolved in Hres.
    unfold failed_get_events, Deferred_errback in E.
    destruct (deferred_state w (deferred l)); try done;
      by injection E as <- <-. }
  intros v Hv. unfold _timeout_listener.
  destruct (notify l [] (from_token l) (from_token l) v) as [v'|] eqn:En;
    [|by rewrite notify_eq in En].
  exists v'. split; [done|].
  destruct (notify_effect _ _ _ _ _ _ En) as (_ & Hkeep & Hnu & Hnr).
  split.
  { rewrite Hkeep; [done|]. unfold unresolved. by rewrite Hv. }
  split; [done|]. split; [done|].
  intros Hin ->. by apply Hnu.
Qed.

(** X9. In a run of the reactor, with calls suspended and queries failing
    or not, the user index does not keep a listener that has been
    delivered to, nor do the sets of its own rooms: a listener whose
    Deferred was called with a result is in the set of no user and in the
    set of none of its [rooms]. *)
Theorem delivered_listener_not_in_own_sets es sys l :
  async_reachable es sys →
  delivered (notifier sys) l →
  (∀ u, ¬ in_user (notifier sys) u l) ∧
  (∀ room, room ∈ rooms l → ¬ in_room (notifier sys) room l).
Proof.
  intros Hr Hdl. apply async_reachable_coherent in Hr as Hc. split.
  - intros u Hu. apply (own_user_undelivered _ Hc l); [|done].
    by rewrite <- (coherent_in_user_own _ Hc l u Hu).
  - intros room Hroom Hin. by apply (own_room_undelivered _ Hc l room).
Qed.

(** X10. A deadline that fires after its listener has been delivered to
    only consumes the timer: in a run of the reactor, when a pending
    [_timeout_listener] call runs for a listener whose Deferred was called
    with a result, the call raises nothing and the notifier is as before
    with that call off the queue. *)
Theorem late_timer_after_delivery_only_leaves_the_queue es sys i delay l :
  async_reachable es sys →
  timers (notifier sys) !! i = Some (delay, l) →
  delivered (notifier sys) l →
  _timeout_listener l (pop_timer i (notifier sys)) =
    Ok (pop_timer i (notifier sys)).
Proof.
  intros Hr Hi [res Hres]. apply async_reachable_coherent in Hr as Hc.
  unfold _timeout_listener. apply notify_resolved_noop.
  - unfold unresolved.
    change (deferred_state (pop_timer i (notifier sys)) (deferred l))
      with (deferred_state (notifier sys) (deferred l)).
    by rewrite Hres.
  - intros Hu. apply (own_user_undelivered _ Hc l Hu). by exists res.
  - intros room Hroom Hin.
    apply (own_room_undelivered _ Hc l room Hroom Hin). by exists res.
Qed.

Lemma delivered_listener_not_in_own_sets_witness :
  async_reachable quiet_sources
    (mkSystem (get_events_for quiet_sources "@bob" ["!r1"] (Some "t0") 10 0
                              sample_waiting).2 []) ∧
  delivered
    (get_events_for quiet_sources "@bob" ["!r1"] (Some "t0") 10 0
                    sample_waiting).2
    (mkListener "@bob" ["!r1"] "t0" 10 0 2%positive) ∧
  ¬ in_room
      (get_events_for quiet_sources "@bob" ["!r1"] (Some "t0") 10 0
                      sample_waiting).2
      "!r1" (mkListener "@bob" ["!r1"] "t0" 10 0 2%positive).
Proof.
  set (w := (get_events_for quiet_sources "@bob" ["!r1"] (Some "t0") 10 0
               sample_waiting).2).
  set (bob := mkListener "@bob" ["!r1"] "t0" 10 0 2%positive).
  assert (Hr : async_reachable quiet_sources (mkSystem w [])).
  { apply reachable_async_reachable.
    eapply reachable_step; [apply reachable_sample_waiting|].
    apply step_get_events_for. }
  assert (Hdl : delivered w bob).
  { exists ([], ("t0", "t0")). by vm_compute. }
  split; [exact Hr|]. split; [exact Hdl|].
  destruct (delivered_listener_not_in_own_sets quiet_sources
              (mkSystem w []) bob Hr Hdl) as [_ Hrooms].
  apply Hrooms. apply elem_of_cons. by left.
Defined.

Lemma late_timer_after_delivery_only_leaves_the_queue_witness :
  async_reachable busy_sources
    (mkSystem (get_events_for busy_sources "@bob" ["!r1"] (Some "t0") 10
                              3000 Notifier_init).2 []) ∧
  _timeout_listener (mkListener "@bob" ["!r1"] "t0" 10 3000 1%positive)
    (pop_timer 0
       (get_events_for busy_sources "@bob" ["!r1"] (Some "t0") 10 3000
                       Notifier_init).2) =
  Ok (pop_timer 0
        (get_events_for busy_sources "@bob" ["!r1"] (Some "t0") 10 3000
                        Notifier_init).2).
Proof.
  set (w := (get_events_for busy_sources "@bob" ["!r1"] (Some "t0") 10 3000
               Notifier_init).2).
  set (bob := mkListener "@bob" ["!r1"] "t0" 10 3000 1%positive).
  assert (Hr : async_reachable busy_sources (mkSystem w [])).
  { apply reachable_async_reachable.
    eapply reachable_step; [apply reachable_init|].
    apply step_get_events_for. }
  split; [exact Hr|].
  apply (late_timer_after_delivery_only_leaves_the_queue busy_sources
           (mkSystem w []) 0 3 bob Hr).
  - by_compute.
  - exists ([sample_event], ("t0", "t1")). by vm_compute.
Defined.

(** X11. A join makes room events ask for a listener that never named the
    room.  For a listener in the set of user [u], after
    [_user_joined_room u room] an [on_new_room_event] for [room] with no
    extra users changes nothing at first and waits for the room source
    with that listener among the candidates it will query; and when the
    answer for it arrives with events while it is still unresolved, it is
    resolved with them, its [from_token] and the cursor of the answer. *)
Theorem joined_room_event_queries_user_listener es event u l w source :
  in_user w u l →
  sources_getitem (sources es) "room" = Ok source →
  ∃ waiting,
    on_new_room_event_begin es event []
      (_user_joined_room u (room_id event) w) =
      (Waiting (in_dispatch source waiting),
       _user_joined_room u (room_id event) w) ∧
    l ∈ waiting ∧
    (∀ y, y ∈ waiting →
          in_room w (room_id event) y ∨ in_user w u y) ∧
    (∀ rest events new_cursor w',
       events ≠ [] → unresolved w' l →
       ∃ st w'',
         resume (in_dispatch source (l :: rest)) (Ok (events, new_cursor)) w'
           = Some (st, w'') ∧
         deferred_state w'' (deferred l) =
           Called (events, (from_token l, new_cursor)) ∧
         ¬ in_user w'' (user l) l).
Proof.
  intros Hu Hsrc.
  set (w1 := _user_joined_room u (room_id event) w).
  set (ls := elements (room_event_listeners (room_id event) [] w1)).
  assert (Hin : ∀ y, y ∈ ls ↔ in_room w (room_id event) y ∨ in_user w u y).
  { intros y. unfold ls.
    rewrite elem_of_elements, elem_of_room_event_listeners.
    destruct (user_joined_room_merges u (room_id event) w)
      as (_ & _ & _ & _ & Hroom & _).
    fold w1 in Hroom. rewrite Hroom. split; [|by left].
    intros [?|(u' & Hn & _)]; [done|]. by apply elem_of_nil in Hn. }
  assert (Hl : l ∈ ls) by (apply Hin; by right).
  exists ls. split.
  { unfold on_new_room_event_begin. rewrite Hsrc. fold w1 ls.
    unfold dispatch_loop. destruct ls; [by apply elem_of_nil in Hl|done]. }
  split; [done|]. split; [intros y; apply Hin|].
  intros rest events new_cursor w' Hev Hun.
  destruct (resume_dispatch source l rest events new_cursor w')
    as (w'' & E & _ & Hne).
  exists (dispatch_loop source rest w'').1, w''. split.
  { rewrite E. unfold dispatch_loop. by destruct rest. }
  destruct (notify_effect _ _ _ _ _ _ (Hne Hev)) as (Hd & _ & Hnu & _).
  split; [by apply Hd|done].
Qed.

Lemma joined_room_event_queries_user_listener_witness :
  in_user sample_waiting "@alice" sample_listener ∧
  ("!r7" ∉ rooms sample_listener) ∧
  ∃ waiting,
    on_new_room_event_begin busy_sources (mkEvent "!r7" "m.room.message") []
      (_user_joined_room "@alice" "!r7" sample_waiting) =
      (Waiting (in_dispatch busy_source waiting),
       _user_joined_room "@alice" "!r7" sample_waiting) ∧
    sample_listener ∈ waiting.
Proof.
  assert (Hu : in_user sample_waiting "@alice" sample_listener)
    by by_compute.
  split; [exact Hu|]. split; [by_compute|].
  destruct (joined_room_event_queries_user_listener busy_sources
              (mkEvent "!r7" "m.room.message") "@alice" sample_listener
              sample_waiting busy_source Hu eq_refl)
    as (waiting & E & Hl & _).
  exists waiting. split; [exact E|exact Hl].
Defined.

